(** * The button network (docs/agentpy_button_network.ipynb)

  A shallow embedding of the notebook's [ButtonModel]: its three methods
  [setup], [update] and [step], the Python arithmetic they use (ints as
  [Z], floats as binary64 through the Standard Library's [SpecFloat]) and
  the graph operations they call ([networkx]'s [Graph.add_edge] and
  [connected_components]). *)

From Stdlib Require Import ZArith Lia Bool.
From Stdlib Require Import Floats.SpecFloat.
From stdpp Require Import base gmap sets list.

(** * Python values and control *)
Module Py.

(** The exceptions in play. [InvalidConfiguration] is the one the
    specification names; no method of the notebook raises it. *)
Inductive exn : Set :=
  | ValueError
  | OverflowError
  | ZeroDivisionError
  | InvalidConfiguration.

Inductive result (A : Type) : Type :=
  | Ok (a : A)
  | Raise (e : exn).
Global Arguments Ok {A} a.
Global Arguments Raise {A} e.

Global Instance result_ret : MRet result := @Ok.
Global Instance result_bind : MBind result := λ A B k r,
  match r with
  | Ok a => k a
  | Raise e => Raise e
  end.

(** [for _ in range(k): body], the first exception ending the loop. *)
Fixpoint for_range {S : Type} (k : nat) (body : S → result S) (s : S) : result S :=
  match k with
  | O => Ok s
  | S k' => s' ← body s; for_range k' body s'
  end.

(** [max(l)] on a list: [ValueError] on the empty list. *)
Definition max (l : list Z) : result Z :=
  match l with
  | [] => Raise ValueError
  | x :: l' => Ok (fold_left Z.max l' x)
  end.

End Py.
Import Py.

(** * Binary64 floats, as Python's [float] *)
Module F64.
Local Open Scope Z_scope.

Definition prec : Z := 53.
Definition emax : Z := 1024.

Definition zero : spec_float := S754_zero false.
Definition one : spec_float := S754_finite false 4503599627370496 (-52).

(** [x <= y] on floats; it fails as soon as one side is a NaN. *)
Definition le (x y : spec_float) : Prop := SFleb x y = true.

(** The integer [z] as a mantissa at exponent 0, not yet rounded. *)
Definition Zfloat (z : Z) : spec_float :=
  match z with
  | Z0 => S754_zero false
  | Zpos p => S754_finite false p 0
  | Zneg p => S754_finite true p 0
  end.

(** [float(n)] for a Python int: the nearest float, ties to even;
    [OverflowError] when [n] is beyond the largest float. *)
Definition of_int (n : Z) : result spec_float :=
  match binary_normalize prec emax n 0 false with
  | S754_infinity _ => Raise OverflowError
  | x => Ok x
  end.

(** [n * x] with [n] an int and [x] a float: the int is converted first. *)
Definition int_mul (n : Z) (x : spec_float) : result spec_float :=
  nf ← of_int n; Ok (SFmul prec emax nf x).

(** [int(x)]: truncation toward zero; a NaN raises [ValueError], an
    infinity [OverflowError]. *)
Definition to_int (x : spec_float) : result Z :=
  match x with
  | S754_zero _ => Ok 0
  | S754_finite s m e => Ok (cond_Zopp s (Z.shiftl (Zpos m) e))
  | S754_infinity _ => Raise OverflowError
  | S754_nan => Raise ValueError
  end.

(** [math.floor(x)], the rounding the specification names. *)
Definition floor (x : spec_float) : result Z :=
  match x with
  | S754_zero _ => Ok 0
  | S754_finite s m e => Ok (Z.shiftl (cond_Zopp s (Zpos m)) e)
  | S754_infinity _ => Raise OverflowError
  | S754_nan => Raise ValueError
  end.

(** [a / b] on two Python ints (true division): the correctly rounded
    quotient; [ZeroDivisionError] for [b = 0], [OverflowError] when the
    quotient is beyond the largest float. *)
Definition int_truediv (a b : Z) : result spec_float :=
  if b =? 0 then Raise ZeroDivisionError
  else match SFdiv prec emax (Zfloat a) (Zfloat b) with
       | S754_infinity _ => Raise OverflowError
       | x => Ok x
       end.

(** ** What the rounding of a quotient computes

    [X / Y] with its position between two integers, the integer nearest
    to it (ties to even), and the float this integer stands for at
    exponent [t - 1074]. *)
Definition loc_of_div (X Y : Z) : location :=
  if X mod Y =? 0 then loc_Exact else loc_Inexact (2 * (X mod Y) ?= Y).

Definition rne_div (X Y : Z) : Z := round_nearest_even (X / Y) (loc_of_div X Y).

Definition shr_inv (mrs : shr_record) (X Y : Z) : Prop :=
  0 < Y ∧ 0 <= X ∧ shr_m mrs = X / Y ∧ loc_of_shr_record mrs = loc_of_div X Y.

(** [t - 1074] is the exponent at which [A / 2^1074 / n] has 53 digits,
    or the least exponent when it has fewer. *)
Definition good (A n t : Z) : Prop :=
  0 <= t ∧ A / (n * 2 ^ t) < 2 ^ 53 ∧ (t = 0 ∨ 2 ^ 52 <= A / (n * 2 ^ t)).

Definition pack (m t : Z) : spec_float :=
  if m =? 0 then S754_zero false
  else if t - 1074 <=? 971 then S754_finite false (Z.to_pos m) (t - 1074)
  else S754_infinity false.

Definition rounded (M t : Z) : spec_float :=
  if M =? 0 then S754_zero false
  else if M =? 2 ^ 53 then
    (if t - 1073 <=? 971 then S754_finite false (Z.to_pos (2 ^ 52)) (t - 1073)
     else S754_infinity false)
  else if t - 1074 <=? 971 then S754_finite false (Z.to_pos M) (t - 1074)
  else S754_infinity false.

(** The last stage of [binary_round_aux], after the first rounding. *)
Definition finish_round (M e1 : Z) : spec_float :=
  let '(mrs'', e'') := shr_fexp 53 1024 M e1 loc_Exact in
  match shr_m mrs'' with
  | Z0 => S754_zero false
  | Zpos m => if Z.leb e'' (1024 - 53) then S754_finite false m e'' else S754_infinity false
  | _ => S754_nan
  end.

End F64.

(** * Undirected graphs, as [networkx.Graph] *)
Module nx.

(** The adjacency dictionary [_adj]: node to the set of its neighbours. *)
Abbreviation Graph := (gmap nat (gset nat)).

Definition neighbors (g : Graph) (v : nat) : gset nat := default ∅ (g !! v).

Definition add_node (g : Graph) (u : nat) : Graph :=
  match g !! u with
  | Some _ => g
  | None => <[u := ∅]> g
  end.

(** [G.add_edge(u, v)]: both endpoints become nodes when they are not,
    and each is recorded as a neighbour of the other. A pair that is
    already tied is stored once. *)
Definition add_edge (g : Graph) (u v : nat) : Graph :=
  let g0 := add_node (add_node g u) v in
  let g1 := <[u := neighbors g0 u ∪ {[v]}]> g0 in
  <[v := neighbors g1 v ∪ {[u]}]> g1.

(** Breadth-first search by levels: [seen] are the visited nodes,
    [nextlevel] the nodes met at the last level. *)
Fixpoint bfs_levels (fuel : nat) (g : Graph) (seen nextlevel : gset nat) : gset nat :=
  match fuel with
  | O => seen
  | S fuel' =>
      if decide (nextlevel = ∅) then seen
      else
        let thislevel := nextlevel ∖ seen in
        bfs_levels fuel' g (seen ∪ thislevel)
          (⋃ (neighbors g <$> elements thislevel))
  end.

Definition plain_bfs (g : Graph) (source : nat) : gset nat :=
  bfs_levels (S (S (size g))) g ∅ {[source]}.

Fixpoint components_from (g : Graph) (vs : list nat) (seen : gset nat) : list (gset nat) :=
  match vs with
  | [] => []
  | v :: vs' =>
      if decide (v ∈ seen) then components_from g vs' seen
      else
        let c := plain_bfs g v in
        c :: components_from g vs' (seen ∪ c)
  end.

(** [nx.connected_components(G)]: one set of nodes per component. *)
Definition connected_components (g : Graph) : list (gset nat) :=
  components_from g (elements (dom g)) ∅.

(** The sizes [len(c)] of the components, in their order. *)
Definition cluster_sizes (g : Graph) : list Z :=
  (λ c, Z.of_nat (size c)) <$> connected_components g.

(** [v] is reached from [u] along edges of [g]. *)
Definition edge (g : Graph) (u v : nat) : Prop := v ∈ neighbors g u.
Definition connected (g : Graph) : relation nat := rtc (edge g).

(** Every neighbour is a node, and edges go both ways. *)
Definition closed (g : Graph) : Prop :=
  ∀ u v, v ∈ neighbors g u → v ∈ dom g.
Definition symmetric (g : Graph) : Prop :=
  ∀ u v, v ∈ neighbors g u → u ∈ neighbors g v.
Definition loop_free (g : Graph) : Prop :=
  ∀ u, u ∉ neighbors g u.

End nx.

(** * The random source *)

(** Modelled from the spec: [AgentList.random(2)] belongs to the agentpy
    library, whose code is not part of the notebook. The specification
    asks for two distinct nodes drawn from the full node universe, so a
    random source is any state [G] with a draw that returns the nodes of
    two different agents of the list together with its next state, and
    that succeeds whenever the list holds two agents. How the two are
    chosen is left open. *)
Class RandomSource (G : Type) := {
  random2 : list nat → G → result (nat * nat * G);
  random2_sound : ∀ l g a b g',
    random2 l g = Ok (a, b, g') →
    ∃ i j, i ≠ j ∧ l !! i = Some a ∧ l !! j = Some b;
  random2_total : ∀ l g,
    2 ≤ length l → ∃ a b g', random2 l g = Ok (a, b, g')
}.

(** A linear congruential generator as one such source; the two positions
    are chosen the way [random.sample] fills a short sample: the second
    draw ranges over one position less and the last position stands in
    for the one already taken. *)
Module Lcg.
Local Open Scope Z_scope.

Definition next (s : Z) : Z :=
  (6364136223846793005 * s + 1442695040888963407) mod 2 ^ 64.

Definition below (k : nat) (s : Z) : nat :=
  Z.to_nat ((s / 2 ^ 32) mod Z.of_nat k).

Definition sample2 (l : list nat) (s : Z) : result (nat * nat * Z) :=
  let k := length l in
  if decide (k < 2)%nat then Raise ValueError
  else
    let s1 := next s in
    let i := below k s1 in
    let s2 := next s1 in
    let j0 := below (k - 1) s2 in
    let j := if decide (j0 = i) then (k - 1)%nat else j0 in
    match l !! i, l !! j with
    | Some a, Some b => Ok (a, b, s2)
    | _, _ => Raise ValueError
    end.

#[global, refine] Instance source : RandomSource Z :=
  {| random2 := sample2 |}.
Proof.
  all: assert (below_lt : ∀ k s, (0 < k)%nat → (below k s < k)%nat).
  1, 3: intros k s Hk; unfold below;
    pose proof (Z.mod_pos_bound (s / 2 ^ 32) (Z.of_nat k) ltac:(lia)); lia.
  - intros l g a b g'. unfold sample2. case_decide as Hk; [discriminate|].
    set (i := below (length l) (next g)).
    set (j0 := below (length l - 1) (next (next g))).
    intros Heq. exists i, (if decide (j0 = i) then (length l - 1)%nat else j0).
    pose proof (below_lt (length l - 1)%nat (next (next g)) ltac:(lia)) as Hj0.
    fold j0 in Hj0.
    destruct (l !! i) as [a'|] eqn:Ei; [|discriminate].
    destruct (l !! (if decide (j0 = i) then (length l - 1)%nat else j0)) as [b'|] eqn:Ej;
      [|discriminate].
    injection Heq as -> -> _. split; [|done].
    case_decide; lia.
  - intros l g Hl. unfold sample2. case_decide as Hk; [lia|].
    set (i := below (length l) (next g)).
    set (j0 := below (length l - 1) (next (next g))).
    pose proof (below_lt (length l) (next g) ltac:(lia)) as Hi. fold i in Hi.
    pose proof (below_lt (length l - 1)%nat (next (next g)) ltac:(lia)) as Hj0.
    fold j0 in Hj0.
    destruct (lookup_lt_is_Some_2 l i Hi) as [a ->].
    destruct (lookup_lt_is_Some_2 l (if decide (j0 = i) then (length l - 1)%nat else j0))
      as [b ->]; [case_decide; lia|].
    eauto.
Defined.

End Lcg.

(** * The model: [ButtonModel] *)

(** The parameters [self.p]. *)
Record Params := {
  n : Z;
  speed : spec_float;
  steps : Z
}.

(** The recorded variables, one series per name, oldest first. *)
Record Log := {
  max_cluster_size : list spec_float;
  threads_to_button : list spec_float
}.

(** The methods of the model a driver may call after [setup]. *)
Inductive call : Set := Step | Update.

(** The state of a model. An agent is identified with its node of the
    network: agent number [k] of the list sits on node [k]. [random] is
    the model's random source. *)
Record ButtonModel (G : Type) := {
  p : Params;
  buttons : nx.Graph;
  agents : list nat;
  threads : Z;
  log : Log;
  random : G
}.
Arguments p {G} _.
Arguments buttons {G} _.
Arguments agents {G} _.
Arguments threads {G} _.
Arguments log {G} _.
Arguments random {G} _.

Section ButtonModel.
Context {G : Type} `{RandomSource G}.
Local Open Scope Z_scope.
Local Abbreviation ButtonModel := (ButtonModel G).

(** Modelled from the spec: [Model.record] belongs to the agentpy library,
    whose code is not part of the notebook. The specification's log is
    append-only, so recording a value appends it to the series of its
    name. *)
Definition record_max_cluster_size (v : spec_float) (m : ButtonModel) : ButtonModel :=
  {| p := p m; buttons := buttons m; agents := agents m; threads := threads m;
     log := {| max_cluster_size := max_cluster_size (log m) ++ [v];
               threads_to_button := threads_to_button (log m) |};
     random := random m |}.

(** Modelled from the spec: [Model.record], for the other series. *)
Definition record_threads_to_button (v : spec_float) (m : ButtonModel) : ButtonModel :=
  {| p := p m; buttons := buttons m; agents := agents m; threads := threads m;
     log := {| max_cluster_size := max_cluster_size (log m);
               threads_to_button := threads_to_button (log m) ++ [v] |};
     random := random m |}.

(** Modelled from the spec: [ap.AgentList(self, n)] belongs to the agentpy
    library. The specification has construction make [n] nodes, one per
    agent; a count below 1 makes no agent, as [range(n)] does. *)
Definition AgentList (count : Z) : list nat := seq 0 (Z.to_nat count).

(** Modelled from the spec: [ap.Network(self)] and its [add_agents] belong
    to the agentpy library. The specification has construction start
    from isolated nodes and no edge: every agent gets a node of its own. *)
Definition add_agents (agent_list : list nat) : nx.Graph :=
  foldl nx.add_node ∅ agent_list.

(** [setup]: a network with one node per agent, no edge, no thread. It
    checks none of the parameters. *)
Definition setup (prm : Params) (g : G) : result ButtonModel :=
  let agent_list := AgentList (n prm) in
  Ok {| p := prm;
        buttons := add_agents agent_list;
        agents := agent_list;
        threads := 0;
        log := {| max_cluster_size := []; threads_to_button := [] |};
        random := g |}.

(** [update]: record the share of the biggest cluster, then the ratio of
    threads to buttons. *)
Definition update (m : ButtonModel) : result ButtonModel :=
  let clusters := nx.connected_components (buttons m) in
  biggest ← Py.max ((λ c, Z.of_nat (size c)) <$> clusters);
  share ← F64.int_truediv biggest (n (p m));
  let m1 := record_max_cluster_size share m in
  ratio ← F64.int_truediv (threads m1) (n (p m1));
  Ok (record_threads_to_button ratio m1).

(** The body of the loop of [step]: tie two random buttons and count the
    thread. *)
Definition tie (m : ButtonModel) : result ButtonModel :=
  '(a, b, g') ← random2 (agents m) (random m);
  Ok {| p := p m; buttons := nx.add_edge (buttons m) a b; agents := agents m;
        threads := threads m + 1; log := log m; random := g' |}.

(** [int(self.p.n * self.p.speed)] *)
Definition edges_per_step (prm : Params) : result Z :=
  x ← F64.int_mul (n prm) (speed prm); F64.to_int x.

(** [step]: as many ties as [int(n * speed)] says; [range] of a negative
    count is empty. *)
Definition step (m : ButtonModel) : result ButtonModel :=
  k ← edges_per_step (p m); for_range (Z.to_nat k) tie m.

Definition call_method (c : call) : ButtonModel → result ButtonModel :=
  match c with
  | Step => step
  | Update => update
  end.

(** Any sequence of calls a driver makes, the first exception ending it. *)
Fixpoint calls (cs : list call) (m : ButtonModel) : result ButtonModel :=
  match cs with
  | [] => Ok m
  | c :: cs' => m' ← call_method c m; calls cs' m'
  end.

(** The recorded pairs, in the order of the specification's MetricsLog. *)
Definition metrics_log (m : ButtonModel) : list (spec_float * spec_float) :=
  zip (threads_to_button (log m)) (max_cluster_size (log m)).

(** Modelled from the spec: the driver [run] belongs to the agentpy
    library ([Model.run]), whose code is not part of the notebook. The
    specification has it call the step operation [steps] times, each
    one the edge additions of [step] followed by the recording of
    [update]. *)
Definition run_step (m : ButtonModel) : result ButtonModel :=
  m' ← step m; update m'.

(** Modelled from the spec: [run], the whole simulation: construction,
    then [steps] steps. A negative count makes no step, as [range]
    does. *)
Definition run (prm : Params) (g : G) : result ButtonModel :=
  m ← setup prm g; for_range (Z.to_nat (steps prm)) run_step m.

End ButtonModel.

(** * Specification vocabulary *)

Local Open Scope Z_scope.

(** The biggest cluster of a graph, 0 for the graph without nodes. *)
Definition biggest (g : nx.Graph) : Z :=
  match Py.max (nx.cluster_sizes g) with
  | Ok b => b
  | Raise _ => 0%Z
  end.

(** A recorded series: every entry is the quotient by [d] of an int
    between [lo] and [hi], and the entries never decrease. *)
Definition series_inv (d lo hi : Z) (s : list spec_float) : Prop :=
  (∀ i x, s !! i = Some x → ∃ a, (lo ≤ a ≤ hi)%Z ∧ F64.int_truediv a d = Ok x) ∧
  (∀ (i j : nat) x y, (i ≤ j)%nat → s !! i = Some x → s !! j = Some y → F64.le x y).

(** The number of [step] calls in a sequence of calls. *)
Fixpoint count_steps (cs : list call) : Z :=
  match cs with
  | [] => 0%Z
  | Step :: cs' => (1 + count_steps cs')%Z
  | Update :: cs' => count_steps cs'
  end.

(** The driver of the specification as a sequence of calls. *)
Definition schedule (k : nat) : list call := concat (replicate k [Step; Update]).

(** What every state reached from [setup] satisfies: the agents are the
    [n] buttons, the network has exactly their nodes, is undirected and
    without loop, and the two recorded series are as [series_inv] says. *)
Record wf {G : Type} (m : ButtonModel G) : Prop := {
  wf_agents : agents m = seq 0 (Z.to_nat (n (p m)));
  wf_nodes : dom (buttons m) = list_to_set (agents m);
  wf_closed : nx.closed (buttons m);
  wf_symmetric : nx.symmetric (buttons m);
  wf_loop_free : nx.loop_free (buttons m);
  wf_threads : 0 ≤ threads m;
  wf_ratio : series_inv (n (p m)) 0 (threads m) (threads_to_button (log m));
  wf_share : series_inv (n (p m)) 1 (biggest (buttons m)) (max_cluster_size (log m));
  wf_length : length (threads_to_button (log m)) = length (max_cluster_size (log m))
}.

(** The sign of a float that is not a NaN. *)
Definition sign_or_nan (s : bool) (x : spec_float) : Prop :=
  match x with
  | S754_zero s' | S754_infinity s' | S754_finite s' _ _ => s' = s
  | S754_nan => True
  end.

(** A set of nodes that contains whatever is connected to one of its nodes. *)
Definition saturated (g : nx.Graph) (X : gset nat) : Prop :=
  ∀ x y, x ∈ X → nx.connected g x y → y ∈ X.

(** Two outcomes agree: both are results related by [R], or both are the
    same exception. *)
Definition same_outcome {A B} (R : A → B → Prop) (r1 : result A) (r2 : result B) : Prop :=
  match r1, r2 with
  | Ok a, Ok b => R a b
  | Raise e1, Raise e2 => e1 = e2
  | _, _ => False
  end.

(** Two random sources, in states related by [R], draw the same buttons
    and move to related states. *)
Definition same_draws {G1 G2} `{RandomSource G1} `{RandomSource G2}
    (R : G1 → G2 → Prop) : Prop :=
  ∀ l g1 g2, R g1 g2 →
    same_outcome (λ d1 d2, d1.1 = d2.1 ∧ R d1.2 d2.2) (random2 l g1) (random2 l g2).

(** Two models that differ at most in their random sources. *)
Definition same_model {G1 G2} (R : G1 → G2 → Prop)
    (m1 : ButtonModel G1) (m2 : ButtonModel G2) : Prop :=
  p m1 = p m2 ∧ buttons m1 = buttons m2 ∧ agents m1 = agents m2 ∧
  threads m1 = threads m2 ∧ log m1 = log m2 ∧ R (random m1) (random m2).

(** * Sample configurations and states *)

(** The floats of the literals [-0.1], [0.5], [0.05] and [1.5]. *)
Definition minus_tenth : spec_float := S754_finite true 7205759403792794 (-56).
Definition half : spec_float := S754_finite false 4503599627370496 (-53).
Definition twentieth : spec_float := S754_finite false 7205759403792794 (-57).
Definition three_halves : spec_float := S754_finite false 6755399441055744 (-52).

(** A small configuration: four buttons, two ties per step. *)
Definition sample_params : Params := {| n := 4; speed := half; steps := 2 |}.
Definition sample_seed : Z := 2024.

(** Two buttons tied to each other. *)
Definition two_tied : nx.Graph := {[ 0%nat := {[ 1%nat ]}; 1%nat := {[ 0%nat ]} ]}.

Definition sample_calls : list call := [Step; Update; Step; Update].

(** The state [setup] builds for the sample configuration, and the state
    the sample calls lead to from there. *)
Definition sample_start : ButtonModel Z :=
  {| p := sample_params; buttons := foldl nx.add_node ∅ (seq 0 4);
     agents := seq 0 4; threads := 0;
     log := {| max_cluster_size := []; threads_to_button := [] |};
     random := sample_seed |}.

Definition sample_final : ButtonModel Z :=
  match calls sample_calls sample_start with
  | Ok m => m
  | Raise _ => sample_start
  end.

(** The sample state after its first step: buttons 0 and 1 are tied, and
    the next draw picks them again. *)
Definition sample_tied : ButtonModel Z :=
  match calls [Step; Update] sample_start with
  | Ok m => m
  | Raise _ => sample_start
  end.

(** The configuration of the notebook's experiment with 100 buttons. *)
Definition hundred_buttons : Params := {| n := 100; speed := twentieth; steps := 30 |}.

(** The sample state after its second step, before the update. *)
Definition sample_stepped : ButtonModel Z :=
  match step sample_tied with
  | Ok m => m
  | Raise _ => sample_tied
  end.

(** The sample state in the middle of its second step, after one tie. *)
Definition sample_drawn : ButtonModel Z :=
  match tie sample_tied with
  | Ok m => m
  | Raise _ => sample_tied
  end.

(** A configuration with a negative speed, the state [setup] builds for it
    and the state the sample calls lead to. *)
Definition idle_params : Params := {| n := 4; speed := minus_tenth; steps := 2 |}.

Definition idle_start : ButtonModel Z :=
  {| p := idle_params; buttons := foldl nx.add_node ∅ (seq 0 4);
     agents := seq 0 4; threads := 0%Z;
     log := {| max_cluster_size := []; threads_to_button := [] |};
     random := sample_seed |}.

Definition idle_final : ButtonModel Z :=
  match calls sample_calls idle_start with
  | Ok m => m
  | Raise _ => idle_start
  end.

(** A configuration without any button. *)
Definition empty_params : Params := {| n := 0; speed := half; steps := 2 |}.

Definition empty_start : ButtonModel Z :=
  {| p := empty_params; buttons := ∅; agents := []; threads := 0%Z;
     log := {| max_cluster_size := []; threads_to_button := [] |};
     random := sample_seed |}.

(** The sample state after a second update in a row. *)
Definition sample_again : ButtonModel Z :=
  match update sample_final with
  | Ok m => m
  | Raise _ => sample_final
  end.

(** A state whose speed is not a number. *)
Definition nan_start : ButtonModel Z :=
  {| p := {| n := 4; speed := S754_nan; steps := 2 |};
     buttons := foldl nx.add_node ∅ (seq 0 4);
     agents := seq 0 4; threads := 0%Z;
     log := {| max_cluster_size := []; threads_to_button := [] |};
     random := sample_seed |}.

Local Close Scope Z_scope.

(** * Facts on binary64 division *)
Module F64_facts.
  Import F64.
  Local Open Scope Z_scope.

Lemma loc_of_div_exact X Y : 0 < Y -> (loc_of_div X Y = loc_Exact <-> X mod Y = 0).
Proof.
  intros HY. unfold loc_of_div. destruct (Z.eqb_spec (X mod Y) 0); split; congruence.
Qed.

Lemma div2_decomp X Y m r b :
  0 < Y -> X = Y * m + r -> 0 <= r < Y -> (b = 0 \/ b = 1) ->
  forall m', m = 2 * m' + b ->
  X / (2 * Y) = m' /\ X mod (2 * Y) = b * Y + r.
Proof.
  intros HY HX Hr Hb m' Hm.
  assert (H : X = (2 * Y) * m' + (b * Y + r)) by (subst; ring).
  assert (Hrange : 0 <= b * Y + r < 2 * Y) by (destruct Hb; subst b; lia).
  split; symmetry.
  - eapply Z.div_unique_pos; eauto.
  - eapply Z.mod_unique_pos; eauto.
Qed.

Lemma shr_1_inv mrs X Y : shr_inv mrs X Y -> shr_inv (shr_1 mrs) X (2 * Y).
Proof.
  intros (HY & HX & Hm & Hl).
  destruct mrs as [m r s]. simpl in Hm, Hl.
  pose proof (Z.div_mod X Y ltac:(lia)) as Hdm.
  pose proof (Z.mod_pos_bound X Y HY) as Hrb.
  assert (Hex : (r || s = false) <-> X mod Y = 0).
  { rewrite <- (loc_of_div_exact X Y HY), <- Hl. destruct r, s; simpl; split; congruence. }
  assert (Hm0 : 0 <= m) by (subst m; apply Z.div_pos; lia).
  assert (Hgen : forall m' b, (b = 0 \/ b = 1) -> m = 2 * m' + b ->
     shr_inv {| shr_m := m'; shr_r := (b =? 1); shr_s := r || s |} X (2 * Y)).
  { intros m' b Hb Hmb.
    destruct (div2_decomp X Y m (X mod Y) b HY ltac:(subst m; lia) Hrb Hb m' Hmb) as [Hq Hr].
    unfold shr_inv, loc_of_div, loc_of_shr_record, shr_m. rewrite Hq, Hr.
    repeat split; try lia.
    destruct Hb; subst b; cbn [Z.eqb Pos.eqb].
    - destruct (r || s) eqn:E.
      + assert (X mod Y <> 0) by (intros H0; apply Hex in H0; congruence).
        destruct (Z.eqb_spec (0 * Y + X mod Y) 0); [lia|].
        f_equal. symmetry. apply Z.compare_lt_iff. lia.
      + assert (X mod Y = 0) by (apply Hex; reflexivity).
        destruct (Z.eqb_spec (0 * Y + X mod Y) 0); [reflexivity|lia].
    - destruct (Z.eqb_spec (1 * Y + X mod Y) 0); [lia|].
      destruct (r || s) eqn:E.
      + assert (X mod Y <> 0) by (intros H0; apply Hex in H0; congruence).
        f_equal. symmetry. apply Z.compare_gt_iff. lia.
      + assert (X mod Y = 0) by (apply Hex; reflexivity).
        f_equal. symmetry. apply Z.compare_eq_iff. lia. }
  destruct m as [|[p|p|]|p]; try lia; cbn [shr_1].
  - apply (Hgen 0 0); lia.
  - apply (Hgen (Z.pos p) 1); lia.
  - apply (Hgen (Z.pos p) 0); lia.
  - apply (Hgen 0 1); lia.
Qed.

Lemma iter_pos_nat {A} (f : A -> A) p x : SpecFloat.iter_pos f p x = Nat.iter (Pos.to_nat p) f x.
Proof.
  revert x. induction p as [p IH|p IH|]; intros x; cbn [SpecFloat.iter_pos].
  - rewrite !IH, Pos2Nat.inj_xI, Nat.iter_succ_r.
    replace (2 * Pos.to_nat p)%nat with (Pos.to_nat p + Pos.to_nat p)%nat by lia.
    now rewrite Nat.iter_add.
  - rewrite !IH, Pos2Nat.inj_xO.
    replace (2 * Pos.to_nat p)%nat with (Pos.to_nat p + Pos.to_nat p)%nat by lia.
    now rewrite Nat.iter_add.
  - reflexivity.
Qed.

Lemma iter_shr_1_inv k mrs X Y :
  shr_inv mrs X Y -> shr_inv (Nat.iter k shr_1 mrs) X (2 ^ Z.of_nat k * Y).
Proof.
  intros H. induction k as [|k IH].
  - change (2 ^ Z.of_nat 0) with 1. rewrite Z.mul_1_l. exact H.
  - rewrite Nat2Z.inj_succ, Z.pow_succ_r by lia. cbn [Nat.iter nat_rect].
    replace (2 * 2 ^ Z.of_nat k * Y) with (2 * (2 ^ Z.of_nat k * Y)) by ring.
    apply shr_1_inv, IH.
Qed.


Lemma digits2_pos_bounds p :
  2 ^ (Z.pos (digits2_pos p) - 1) <= Z.pos p < 2 ^ Z.pos (digits2_pos p).
Proof.
  induction p as [p IH|p IH|]; cbn [digits2_pos].
  - rewrite Pos2Z.inj_succ.
    replace (Z.succ (Z.pos (digits2_pos p)) - 1) with (Z.succ (Z.pos (digits2_pos p) - 1)) by lia.
    rewrite !Z.pow_succ_r by lia. lia.
  - rewrite Pos2Z.inj_succ.
    replace (Z.succ (Z.pos (digits2_pos p)) - 1) with (Z.succ (Z.pos (digits2_pos p) - 1)) by lia.
    rewrite !Z.pow_succ_r by lia. lia.
  - change (2 ^ (1 - 1)) with 1. change (2 ^ 1) with 2. lia.
Qed.

Lemma Zdigits2_bounds m : 0 < m -> 0 < Zdigits2 m /\ 2 ^ (Zdigits2 m - 1) <= m < 2 ^ Zdigits2 m.
Proof.
  destruct m as [|p|p]; try lia. intros _. cbn [Zdigits2].
  split; [lia | apply digits2_pos_bounds].
Qed.

Lemma pow2_lt_inv a b : 0 <= b -> 2 ^ a < 2 ^ b -> a < b.
Proof.
  intros Hb H. destruct (Z_lt_le_dec a b) as [|Hle]; [assumption|].
  pose proof (Z.pow_le_mono_r 2 b a ltac:(lia) Hle). lia.
Qed.

Lemma Zdigits2_unique m d : 0 < d -> 2 ^ (d - 1) <= m < 2 ^ d -> Zdigits2 m = d.
Proof.
  intros Hd [Hlo Hhi].
  assert (Hm : 0 < m) by (pose proof (Z.pow_pos_nonneg 2 (d - 1)); lia).
  destruct (Zdigits2_bounds m Hm) as (Hd' & Hlo' & Hhi').
  assert (Zdigits2 m - 1 < d) by (apply pow2_lt_inv; lia).
  assert (d - 1 < Zdigits2 m) by (apply pow2_lt_inv; lia).
  lia.
Qed.

Lemma Zdigits2_le m d : 0 <= m < 2 ^ d -> 0 <= d -> Zdigits2 m <= d.
Proof.
  intros [Hm Hlt] Hd. destruct (Z.eq_dec m 0) as [->|Hne]; [assumption|].
  destruct (Zdigits2_bounds m ltac:(lia)) as (Hd' & Hlo' & Hhi').
  assert (Zdigits2 m - 1 < d) by (apply pow2_lt_inv; lia). lia.
Qed.

Lemma Zdigits2_ge m d : 2 ^ d <= m -> 0 <= d -> d < Zdigits2 m.
Proof.
  intros Hm Hd.
  assert (0 < m) by (pose proof (Z.pow_pos_nonneg 2 d); lia).
  destruct (Zdigits2_bounds m ltac:(lia)) as (Hd' & Hlo' & Hhi').
  apply pow2_lt_inv; lia.
Qed.


Lemma rne_div_cases X Y :
  0 < Y -> rne_div X Y = X / Y \/ rne_div X Y = X / Y + 1.
Proof.
  intros HY. unfold rne_div, round_nearest_even.
  destruct (loc_of_div X Y) as [|[]]; auto. destruct (Z.even (X / Y)); auto.
Qed.

Lemma rne_div_exact X Y : 0 < Y -> X mod Y = 0 -> rne_div X Y = X / Y.
Proof.
  intros HY H. unfold rne_div. apply (loc_of_div_exact X Y HY) in H. now rewrite H.
Qed.

Lemma rne_div_mono X X' Y : 0 < Y -> X <= X' -> rne_div X Y <= rne_div X' Y.
Proof.
  intros HY HX.
  pose proof (Z.div_le_mono X X' Y HY HX) as Hq.
  pose proof (Z.div_mod X Y ltac:(lia)) as E1. pose proof (Z.div_mod X' Y ltac:(lia)) as E2.
  pose proof (Z.mod_pos_bound X Y HY) as B1. pose proof (Z.mod_pos_bound X' Y HY) as B2.
  destruct (Z.eq_dec (X / Y) (X' / Y)) as [Heq|Hne].
  - assert (Hr : X mod Y <= X' mod Y) by nia.
    unfold rne_div, loc_of_div, round_nearest_even. rewrite <- Heq.
    destruct (Z.eqb_spec (X mod Y) 0) as [H0|H0]; destruct (Z.eqb_spec (X' mod Y) 0) as [H0'|H0'];
      try lia.
    + destruct (2 * (X' mod Y) ?= Y); try lia. destruct (Z.even (X / Y)); lia.
    + destruct (Z.compare_spec (2 * (X mod Y)) Y); destruct (Z.compare_spec (2 * (X' mod Y)) Y);
        try lia; destruct (Z.even (X / Y)); lia.
  - destruct (rne_div_cases X Y HY), (rne_div_cases X' Y HY); lia.
Qed.

Lemma good_mono A B n t u :
  0 < n -> 0 <= A <= B -> good A n t -> good B n u -> t <= u.
Proof.
  intros Hn HAB (Ht & _ & Hlo) (Hu & Hhi & _).
  destruct (Z_le_gt_dec t u) as [|Hgt]; [assumption|exfalso].
  destruct Hlo as [->|Hlo]; [lia|].
  assert (Hpu : 0 < 2 ^ u) by (apply Z.pow_pos_nonneg; lia).
  assert (Hpt : 2 * 2 ^ u <= 2 ^ t).
  { rewrite <- Z.pow_succ_r by lia. apply Z.pow_le_mono_r; lia. }
  assert (H1 : 2 ^ 52 * (n * 2 ^ t) <= A).
  { pose proof (Z.mul_div_le A (n * 2 ^ t) ltac:(nia)). nia. }
  assert (H2 : B < 2 ^ 53 * (n * 2 ^ u)).
  { pose proof (Z.mul_succ_div_gt B (n * 2 ^ u) ltac:(nia)). nia. }
  change (2 ^ 53) with (2 * 2 ^ 52) in H2. nia.
Qed.

Lemma finish_round_rounded M e1 :
  -1074 <= e1 -> 0 <= M <= 2 ^ 53 -> (e1 = -1074 \/ 2 ^ 52 <= M) ->
  finish_round M e1 = rounded M (e1 + 1074).
Proof.
  intros He HM Hn. unfold finish_round, shr_fexp, rounded.
  destruct (Z.eqb_spec M 0) as [->|HM0].
  - cbn [Zdigits2]. unfold fexp, emin.
    replace (Z.max (0 + e1 - 53) (3 - 1024 - 53) - e1) with (Z.min 0 (-1074 - e1 + 0)) by lia.
    destruct (Z.min 0 (-1074 - e1 + 0)) eqn:E; try lia; reflexivity.
  - destruct (Z.eqb_spec M (2 ^ 53)) as [->|HM53].
    + replace (Zdigits2 (2 ^ 53)) with 54 by reflexivity. unfold fexp, emin.
      replace (Z.max (54 + e1 - 53) (3 - 1024 - 53) - e1) with 1 by lia.
      cbn [shr SpecFloat.iter_pos]. change (2 ^ 53) with 9007199254740992.
      cbn [shr_record_of_loc shr_1 shr_m]. 
      replace (e1 + 1074 - 1073) with (e1 + 1) by lia. reflexivity.
    + assert (Hd : Zdigits2 M <= 53) by (apply Zdigits2_le; lia).
      assert (Hd' : e1 = -1074 \/ Zdigits2 M = 53).
      { destruct Hn as [|Hn]; [now left|right]. apply Zdigits2_unique; [lia|].
        change (53 - 1) with 52. lia. }
      unfold fexp, emin.
      replace (Z.max (Zdigits2 M + e1 - 53) (3 - 1024 - 53) - e1) with 0 by lia.
      cbn [shr shr_record_of_loc shr_m].
      replace (e1 + 1074 - 1074) with e1 by lia.
      destruct M as [|p|p]; try lia. reflexivity.
Qed.

Lemma loc_of_shr_record_of_loc m l : loc_of_shr_record (shr_record_of_loc m l) = l.
Proof. destruct l as [|[]]; reflexivity. Qed.

Lemma shr_m_record_of_loc m l : shr_m (shr_record_of_loc m l) = m.
Proof. destruct l as [|[]]; reflexivity. Qed.

Lemma binary_round_aux_finish mx ex lx :
  binary_round_aux 53 1024 false mx ex lx =
  let '(mrs', e') := shr_fexp 53 1024 mx ex lx in
  finish_round (round_nearest_even (shr_m mrs') (loc_of_shr_record mrs')) e'.
Proof. reflexivity. Qed.

Lemma rne_div_bounds A Y lo hi :
  0 < Y -> lo <= A / Y < hi -> lo <= rne_div A Y <= hi.
Proof. intros HY H. destruct (rne_div_cases A Y HY); lia. Qed.

Lemma binary_round_aux_char mx ex lx A n :
  0 < n -> 0 <= A -> -1074 <= ex ->
  mx = A / (n * 2 ^ (ex + 1074)) ->
  lx = loc_of_div A (n * 2 ^ (ex + 1074)) ->
  (ex = -1074 \/ 2 ^ 52 <= mx) ->
  exists t, good A n t /\
    binary_round_aux 53 1024 false mx ex lx = rounded (rne_div A (n * 2 ^ t)) t.
Proof.
  intros Hn HA Hex Hmx Hlx Hnorm.
  assert (HY0 : 0 < n * 2 ^ (ex + 1074)).
  { pose proof (Z.pow_pos_nonneg 2 (ex + 1074)). nia. }
  assert (Hmx0 : 0 <= mx) by (subst mx; apply Z.div_pos; lia).
  assert (Hinv : shr_inv (shr_record_of_loc mx lx) A (n * 2 ^ (ex + 1074))).
  { unfold shr_inv. rewrite shr_m_record_of_loc, loc_of_shr_record_of_loc. auto. }
  rewrite binary_round_aux_finish. unfold shr_fexp, shr, fexp, emin.
  destruct (Z.max (Zdigits2 mx + ex - 53) (3 - 1024 - 53) - ex) as [|p|p] eqn:Ek.
  1,3: (assert (Hd : Zdigits2 mx <= 53) by lia;
    assert (Hlt : mx < 2 ^ 53) by
      (destruct (Z.eq_dec mx 0) as [->|]; [reflexivity|];
       destruct (Zdigits2_bounds mx ltac:(lia)) as (_ & _ & Hhi);
       pose proof (Z.pow_le_mono_r 2 (Zdigits2 mx) 53 ltac:(lia) Hd); lia);
    exists (ex + 1074); split;
    [ unfold good; rewrite <- Hmx; split; [lia|split; [assumption|]];
      destruct Hnorm; [left; lia | right; assumption]
    | rewrite shr_m_record_of_loc, loc_of_shr_record_of_loc; subst mx lx;
      fold (rne_div A (n * 2 ^ (ex + 1074)));
      apply finish_round_rounded; [lia | |];
      [ pose proof (rne_div_bounds A (n * 2 ^ (ex + 1074)) 0 (2 ^ 53) HY0 ltac:(lia)); lia
      | destruct Hnorm as [|Hnorm]; [now left|right];
        destruct (rne_div_cases A (n * 2 ^ (ex + 1074)) HY0); lia ] ]).
  (* a real shift by [Z.pos p] = digits - 53 *)
  assert (Hk : Zdigits2 mx = Z.pos p + 53) by lia.
  destruct (Zdigits2_bounds mx) as (_ & Hlo & Hhi).
  { destruct (Z.eq_dec mx 0) as [H0|]; [|lia]. rewrite H0 in Hk. cbn [Zdigits2] in Hk. lia. }
  rewrite Hk in Hlo, Hhi.
  rewrite iter_pos_nat.
  pose proof (iter_shr_1_inv (Pos.to_nat p) _ _ _ Hinv) as Hinv'.
  rewrite positive_nat_Z in Hinv'.
  replace (2 ^ Z.pos p * (n * 2 ^ (ex + 1074))) with (n * 2 ^ (ex + Z.pos p + 1074)) in Hinv'.
  2:{ replace (ex + Z.pos p + 1074) with (Z.pos p + (ex + 1074)) by lia.
      rewrite Z.pow_add_r by lia. ring. }
  destruct Hinv' as (HY' & _ & Hm' & Hl').
  assert (Hq : A / (n * 2 ^ (ex + Z.pos p + 1074)) = mx / 2 ^ Z.pos p).
  { replace (ex + Z.pos p + 1074) with ((ex + 1074) + Z.pos p) by lia.
    rewrite Z.pow_add_r, Z.mul_assoc, <- Z.div_div, <- Hmx by lia. reflexivity. }
  assert (Hp : 0 < 2 ^ Z.pos p) by (apply Z.pow_pos_nonneg; lia).
  assert (Hrange : 2 ^ 52 <= mx / 2 ^ Z.pos p < 2 ^ 53).
  { split.
    - apply Z.div_le_lower_bound; [assumption|].
      rewrite <- Z.pow_add_r by lia. replace (Z.pos p + 52) with (Z.pos p + 53 - 1) by lia.
      assumption.
    - apply Z.div_lt_upper_bound; [assumption|].
      rewrite <- Z.pow_add_r by lia. assumption. }
  exists (ex + Z.pos p + 1074). split.
  - unfold good. rewrite Hq. split; [lia|]. split; [lia|right; lia].
  - rewrite Hm', Hl'. fold (rne_div A (n * 2 ^ (ex + Z.pos p + 1074))).
    replace (ex + Z.pos p + 1074) with ((ex + Z.pos p) + 1074) at 2 by lia.
    apply finish_round_rounded; [lia| |].
    + pose proof (rne_div_bounds A _ 0 (2 ^ 53) HY' ltac:(lia)). lia.
    + right. destruct (rne_div_cases A _ HY'); lia.
Qed.

Lemma new_location_loc_of_div X n :
  0 < n -> new_location n (X mod n) = loc_of_div X n.
Proof.
  intros Hn. pose proof (Z.mod_pos_bound X n Hn) as Hr.
  unfold new_location, new_location_even, new_location_odd, loc_of_div.
  destruct (Z.even n) eqn:Ev; [reflexivity|].
  destruct (Z.eqb_spec (X mod n) 0); [reflexivity|]. f_equal.
  assert (Hodd : Z.odd n = true) by (rewrite <- Z.negb_even, Ev; reflexivity).
  apply Z.odd_spec in Hodd. destruct Hodd as [c Hc].
  destruct (Z.compare_spec (2 * (X mod n) + 1) n);
    destruct (Z.compare_spec (2 * (X mod n)) n); try reflexivity; lia.
Qed.

Lemma loc_of_div_scale c X Y :
  0 < c -> 0 < Y -> loc_of_div (X * c) (Y * c) = loc_of_div X Y.
Proof.
  intros Hc HY. unfold loc_of_div.
  rewrite Z.mul_mod_distr_r by lia.
  destruct (Z.eqb_spec (X mod Y * c) 0); destruct (Z.eqb_spec (X mod Y) 0); try nia.
  - reflexivity.
  - f_equal.
    destruct (Z.compare_spec (2 * (X mod Y * c)) (Y * c));
      destruct (Z.compare_spec (2 * (X mod Y)) Y); try reflexivity; nia.
Qed.

Lemma SFdiv_pos_char (a n : positive) :
  exists t, good (Z.pos a * 2 ^ 1074) (Z.pos n) t /\
    SFdiv 53 1024 (S754_finite false a 0) (S754_finite false n 0) =
    rounded (rne_div (Z.pos a * 2 ^ 1074) (Z.pos n * 2 ^ t)) t.
Proof.
  unfold SFdiv, SFdiv_core_binary. cbn [xorb].
  destruct (Zdigits2_bounds (Z.pos a) ltac:(lia)) as (Hd1 & Hlo1 & _).
  destruct (Zdigits2_bounds (Z.pos n) ltac:(lia)) as (Hd2 & _ & Hhi2).
  set (d1 := Zdigits2 (Z.pos a)) in *. set (d2 := Zdigits2 (Z.pos n)) in *.
  unfold fexp, emin.
  set (e' := Z.min (Z.max (d1 + 0 - (d2 + 0) - 53) (3 - 1024 - 53)) (0 - 0)).
  assert (He' : -1074 <= e' <= 0) by (subst e'; lia).
  assert (Hm' : match 0 - 0 - e' with
                | Z.pos _ => Z.shiftl (Z.pos a) (0 - 0 - e')
                | 0 => Z.pos a
                | Z.neg _ => 0
                end = Z.pos a * 2 ^ (- e')).
  { replace (0 - 0 - e') with (- e') by lia.
    destruct (- e') as [|s|s] eqn:Es.
    - change (2 ^ 0) with 1. lia.
    - apply Z.shiftl_mul_pow2. lia.
    - lia. }
  rewrite Hm'. clear Hm'.
  set (X := Z.pos a * 2 ^ (- e')).
  assert (Hdm : Z.div_eucl X (Z.pos n) = (X / Z.pos n, X mod Z.pos n)).
  { unfold Z.div, Z.modulo. destruct (Z.div_eucl X (Z.pos n)); reflexivity. }
  rewrite Hdm. clear Hdm.
  assert (Hc : 0 < 2 ^ (e' + 1074)) by (apply Z.pow_pos_nonneg; lia).
  assert (HA : Z.pos a * 2 ^ 1074 = X * 2 ^ (e' + 1074)).
  { subst X. rewrite <- Z.mul_assoc, <- Z.pow_add_r by lia. do 2 f_equal. lia. }
  apply binary_round_aux_char; try lia.
  - rewrite HA. rewrite Z.div_mul_cancel_r by lia. reflexivity.
  - rewrite HA, loc_of_div_scale by lia. apply new_location_loc_of_div. lia.
  - destruct (Z.eq_dec e' (-1074)) as [|Hne]; [now left|right].
    assert (Hle : e' <= d1 - d2 - 53) by (subst e'; lia).
    apply Z.div_le_lower_bound; [lia|].
    assert (H1 : 2 ^ (d2 + 52) <= 2 ^ (d1 - 1 + - e')) by (apply Z.pow_le_mono_r; lia).
    rewrite Z.pow_add_r in H1 by lia. rewrite Z.pow_add_r in H1 by lia.
    assert (Hs : 0 < 2 ^ (- e')) by (apply Z.pow_pos_nonneg; lia).
    subst X. nia.
Qed.

Lemma rounded_pack M t :
  rounded M t = if M =? 2 ^ 53 then pack (2 ^ 52) (t + 1) else pack M t.
Proof.
  unfold rounded, pack. destruct (Z.eqb_spec M 0) as [->|]; [reflexivity|].
  destruct (Z.eqb_spec M (2 ^ 53)); [|reflexivity].
  replace (t + 1 - 1074) with (t - 1073) by lia. reflexivity.
Qed.

Lemma pack_le m1 t1 m2 t2 :
  0 <= m1 -> 0 <= m2 ->
  (t1 = t2 /\ m1 <= m2) \/ (t1 < t2 /\ 0 < m2) ->
  SFleb (pack m1 t1) (pack m2 t2) = true.
Proof.
  intros H1 H2 Hc. unfold pack.
  destruct (Z.eqb_spec m1 0) as [->|N1]; destruct (Z.eqb_spec m2 0) as [->|N2]; try lia.
  - reflexivity.
  - destruct (Z.leb_spec (t2 - 1074) 971); reflexivity.
  - pose proof (Z2Pos.id m1 ltac:(lia)) as P1. pose proof (Z2Pos.id m2 ltac:(lia)) as P2.
    destruct (Z.leb_spec (t1 - 1074) 971); destruct (Z.leb_spec (t2 - 1074) 971);
      try reflexivity; try lia.
    unfold SFleb, SFcompare.
    destruct (Z.compare_spec (t1 - 1074) (t2 - 1074)); try reflexivity; try lia.
    change (Pos.compare_cont Eq (Z.to_pos m1) (Z.to_pos m2))
      with (Pos.compare (Z.to_pos m1) (Z.to_pos m2)).
    destruct (Pos.compare_spec (Z.to_pos m1) (Z.to_pos m2)); try reflexivity; lia.
Qed.

Lemma rounded_le Ma Mb t u :
  0 <= Ma <= 2 ^ 53 -> 0 <= Mb <= 2 ^ 53 ->
  (t = u /\ Ma <= Mb) \/ (t < u /\ 2 ^ 52 <= Mb) ->
  SFleb (rounded Ma t) (rounded Mb u) = true.
Proof.
  intros Ha Hb Hcase. rewrite !rounded_pack.
  change (2 ^ 53) with 9007199254740992 in *. change (2 ^ 52) with 4503599627370496 in *.
  destruct (Z.eqb_spec Ma 9007199254740992); destruct (Z.eqb_spec Mb 9007199254740992);
    apply pack_le; lia.
Qed.

Lemma good_rne_bounds A n t :
  0 < n -> 0 <= A -> good A n t ->
  0 <= rne_div A (n * 2 ^ t) <= 2 ^ 53 /\ (t = 0 \/ 2 ^ 52 <= rne_div A (n * 2 ^ t)).
Proof.
  intros Hn HA (Ht & Hhi & Hlo).
  assert (HY : 0 < n * 2 ^ t) by (pose proof (Z.pow_pos_nonneg 2 t); nia).
  assert (H0 : 0 <= A / (n * 2 ^ t)) by (apply Z.div_pos; lia).
  destruct (rne_div_cases A (n * 2 ^ t) HY); split; try lia; destruct Hlo; auto; right; lia.
Qed.

Lemma SFdiv_pos_mono (a b n : positive) :
  (a <= b)%positive ->
  SFleb (SFdiv 53 1024 (S754_finite false a 0) (S754_finite false n 0))
        (SFdiv 53 1024 (S754_finite false b 0) (S754_finite false n 0)) = true.
Proof.
  intros Hab.
  destruct (SFdiv_pos_char a n) as (t & Gt & ->).
  destruct (SFdiv_pos_char b n) as (u & Gu & ->).
  assert (HAB : 0 <= Z.pos a * 2 ^ 1074 <= Z.pos b * 2 ^ 1074).
  { assert (0 < 2 ^ 1074) by (apply Z.pow_pos_nonneg; lia). nia. }
  assert (Hn : 0 < Z.pos n) by lia.
  pose proof (good_mono _ _ _ _ _ Hn HAB Gt Gu) as Htu.
  destruct (good_rne_bounds _ _ _ Hn (proj1 HAB) Gt) as (Ba & _).
  destruct (good_rne_bounds _ _ _ Hn (Z.le_trans _ _ _ (proj1 HAB) (proj2 HAB)) Gu) as (Bb & Nb).
  apply rounded_le; try assumption.
  destruct (Z.eq_dec t u) as [->|Hne].
  - left. split; [reflexivity|]. apply rne_div_mono; [|lia].
    destruct Gu as (Hu & _). pose proof (Z.pow_pos_nonneg 2 u); nia.
  - right. split; [lia|]. destruct Nb as [->|]; [|assumption].
    destruct Gt as (Ht & _). lia.
Qed.

Lemma SFdiv_pos_self (n : positive) :
  SFdiv 53 1024 (S754_finite false n 0) (S754_finite false n 0) =
  S754_finite false 4503599627370496 (-52).
Proof.
  destruct (SFdiv_pos_char n n) as (t & Gt & ->).
  assert (Hsplit : Z.pos n * 2 ^ 1074 = 2 ^ 52 * (Z.pos n * 2 ^ 1022)).
  { change 1074 with (52 + 1022). rewrite Z.pow_add_r by lia. ring. }
  assert (HY : 0 < Z.pos n * 2 ^ 1022) by (pose proof (Z.pow_pos_nonneg 2 1022); nia).
  assert (Hq : Z.pos n * 2 ^ 1074 / (Z.pos n * 2 ^ 1022) = 2 ^ 52).
  { rewrite Hsplit. apply Z.div_mul. lia. }
  assert (G : good (Z.pos n * 2 ^ 1074) (Z.pos n) 1022).
  { unfold good. rewrite Hq. split; [lia|]. split; [reflexivity|right; lia]. }
  assert (HA : 0 <= Z.pos n * 2 ^ 1074 <= Z.pos n * 2 ^ 1074).
  { pose proof (Z.pow_pos_nonneg 2 1074); nia. }
  assert (Hn : 0 < Z.pos n) by lia.
  pose proof (good_mono _ _ _ _ _ Hn HA Gt G).
  pose proof (good_mono _ _ _ _ _ Hn HA G Gt).
  assert (t = 1022) by lia. subst t.
  rewrite rne_div_exact, Hq; [reflexivity|assumption|].
  rewrite Hsplit. apply Z.mod_mul. lia.
Qed.


(** ** True division of Python ints *)

Lemma rounded_shape M t :
  0 <= M ->
  rounded M t = S754_zero false \/ (exists m e, rounded M t = S754_finite false m e)
  \/ rounded M t = S754_infinity false.
Proof.
  intros HM. unfold rounded.
  destruct (M =? 0); [now left|].
  destruct (M =? 2 ^ 53).
  - destruct (t - 1073 <=? 971); [right; left; eauto | now right; right].
  - destruct (t - 1074 <=? 971); [right; left; eauto | now right; right].
Qed.

Lemma SFdiv_nonneg_shape a n :
  0 <= a -> 0 < n ->
  SFdiv prec emax (Zfloat a) (Zfloat n) = S754_zero false
  \/ (exists m e, SFdiv prec emax (Zfloat a) (Zfloat n) = S754_finite false m e)
  \/ SFdiv prec emax (Zfloat a) (Zfloat n) = S754_infinity false.
Proof.
  intros Ha Hn. destruct n as [|n|n]; try lia. destruct a as [|a|a]; try lia.
  - now left.
  - cbn [Zfloat]. destruct (SFdiv_pos_char a n) as (t & Gt & Heq).
    unfold prec, emax. rewrite Heq. apply rounded_shape.
    assert (Hn' : 0 < Z.pos n) by lia.
    assert (HA : 0 <= Z.pos a * 2 ^ 1074) by (pose proof (Z.pow_pos_nonneg 2 1074); nia).
    destruct (good_rne_bounds _ _ _ Hn' HA Gt) as [? _]. lia.
Qed.

Lemma SFdiv_nonneg_mono a b n :
  0 <= a <= b -> 0 < n ->
  SFleb (SFdiv prec emax (Zfloat a) (Zfloat n)) (SFdiv prec emax (Zfloat b) (Zfloat n)) = true.
Proof.
  intros Hab Hn. destruct n as [|n|n]; try lia.
  destruct a as [|a|a]; try lia; destruct b as [|b|b]; try lia.
  - reflexivity.
  - destruct (SFdiv_nonneg_shape (Z.pos b) (Z.pos n) ltac:(lia) ltac:(lia))
      as [E|[(m & e & E)|E]]; rewrite E; reflexivity.
  - apply SFdiv_pos_mono. lia.
Qed.

Lemma int_truediv_mono a b n y :
  0 <= a <= b -> 0 < n -> int_truediv b n = Ok y ->
  exists x, int_truediv a n = Ok x /\ le x y.
Proof.
  intros Hab Hn. unfold int_truediv, le.
  destruct (Z.eqb_spec n 0) as [|_]; [lia|].
  pose proof (SFdiv_nonneg_mono a b n Hab Hn) as Hle.
  destruct (SFdiv_nonneg_shape a n ltac:(lia) Hn) as [Ea|[(m & e & Ea)|Ea]];
    rewrite Ea in *;
    destruct (SFdiv prec emax (Zfloat b) (Zfloat n)) as [sb|sb| |sb mb eb] eqn:Eb;
    intros Hy; try discriminate Hy; injection Hy as <-; try discriminate Hle; eauto.
Qed.

Lemma int_truediv_zero n : 0 < n -> int_truediv 0 n = Ok zero.
Proof.
  intros Hn. unfold int_truediv. destruct (Z.eqb_spec n 0) as [|_]; [lia|].
  destruct n as [|n|n]; try lia. reflexivity.
Qed.

Lemma int_truediv_self n : 0 < n -> int_truediv n n = Ok one.
Proof.
  intros Hn. unfold int_truediv. destruct (Z.eqb_spec n 0) as [|_]; [lia|].
  destruct n as [|n|n]; try lia. cbn [Zfloat]. unfold prec, emax.
  rewrite SFdiv_pos_self. reflexivity.
Qed.

(** A quotient of non-negative ints is a float: it is defined as soon as a
    larger quotient over the same divisor is. *)
Lemma int_truediv_le_one a n :
  0 <= a <= n -> 0 < n -> exists x, int_truediv a n = Ok x /\ le zero x /\ le x one.
Proof.
  intros Ha Hn.
  destruct (int_truediv_mono a n n one Ha Hn (int_truediv_self n Hn)) as (x & Hx & Hle).
  exists x. split; [assumption|]. split; [|assumption].
  destruct (int_truediv_mono 0 a n x ltac:(lia) Hn Hx) as (z & Hz & Hzle).
  rewrite int_truediv_zero in Hz by assumption. now injection Hz as <-.
Qed.

Lemma int_truediv_nonneg a n x :
  0 <= a -> 0 < n -> int_truediv a n = Ok x -> le zero x.
Proof.
  intros Ha Hn Hx.
  destruct (int_truediv_mono 0 a n x ltac:(lia) Hn Hx) as (z & Hz & Hzle).
  rewrite int_truediv_zero in Hz by assumption. now injection Hz as <-.
Qed.

End F64_facts.

(** * Facts on graphs and their components *)
Module nx_facts.
Import nx.

Lemma neighbors_in_dom (g : Graph) u v : v ∈ neighbors g u → u ∈ dom g.
Proof.
  unfold neighbors. intros Hv. apply elem_of_dom.
  destruct (g !! u); [eauto | set_solver].
Qed.

Lemma dom_add_node (g : Graph) u : dom (add_node g u) = {[u]} ∪ dom g.
Proof.
  unfold add_node. destruct (g !! u) eqn:E.
  - apply elem_of_dom_2 in E. set_solver.
  - by rewrite dom_insert_L.
Qed.

Lemma neighbors_add_node (g : Graph) u w : neighbors (add_node g u) w = neighbors g w.
Proof.
  unfold add_node, neighbors. destruct (g !! u) eqn:E; [done|].
  destruct (decide (u = w)) as [->|Hne].
  - by rewrite lookup_insert_eq, E.
  - by rewrite lookup_insert_ne.
Qed.

Lemma dom_add_edge (g : Graph) u v : dom (add_edge g u v) = {[u; v]} ∪ dom g.
Proof.
  unfold add_edge. rewrite !dom_insert_L, !dom_add_node. set_solver.
Qed.

Lemma neighbors_add_edge (g : Graph) u v w :
  neighbors (add_edge g u v) w =
  neighbors g w ∪ (if decide (w = u) then {[v]} else ∅)
               ∪ (if decide (w = v) then {[u]} else ∅).
Proof.
  unfold add_edge.
  unfold neighbors at 1.
  destruct (decide (w = v)) as [->|Hv].
  - rewrite lookup_insert_eq. cbn [default].
    unfold neighbors at 1.
    destruct (decide (v = u)) as [->|Hu].
    + rewrite lookup_insert_eq. cbn [default]. rewrite !neighbors_add_node. set_solver.
    + rewrite lookup_insert_ne by done. fold (neighbors (add_node (add_node g u) v) v).
      rewrite !neighbors_add_node. set_solver.
  - rewrite lookup_insert_ne by done.
    destruct (decide (w = u)) as [->|Hu].
    + rewrite lookup_insert_eq. cbn [default]. rewrite !neighbors_add_node. set_solver.
    + rewrite lookup_insert_ne by done. fold (neighbors (add_node (add_node g u) v) w).
      rewrite !neighbors_add_node. set_solver.
Qed.

Lemma add_edge_closed (g : Graph) u v : closed g → closed (add_edge g u v).
Proof.
  intros Hc a b. rewrite neighbors_add_edge, dom_add_edge. intros Hb.
  repeat case_decide; set_solver.
Qed.

Lemma add_edge_symmetric (g : Graph) u v : symmetric g → symmetric (add_edge g u v).
Proof.
  intros Hs a b. rewrite !neighbors_add_edge. intros Hb.
  repeat case_decide; set_solver.
Qed.

Lemma add_edge_loop_free (g : Graph) u v : u ≠ v → loop_free g → loop_free (add_edge g u v).
Proof.
  intros Hne Hl a. rewrite neighbors_add_edge. specialize (Hl a).
  repeat case_decide; set_solver.
Qed.

(** Tying a pair that is tied already changes nothing. *)
Lemma add_edge_tied (g : Graph) u v :
  v ∈ neighbors g u → u ∈ neighbors g v → add_edge g u v = g.
Proof.
  intros Hv Hu.
  assert (Hgu : g !! u = Some (neighbors g u)).
  { unfold neighbors in *. destruct (g !! u); [done | set_solver]. }
  assert (Hgv : g !! v = Some (neighbors g v)).
  { unfold neighbors in *. destruct (g !! v); [done | set_solver]. }
  unfold add_edge.
  assert (Hn : add_node (add_node g u) v = g).
  { unfold add_node. rewrite Hgu, Hgv. done. }
  rewrite Hn.
  assert (H1 : <[u:=neighbors g u ∪ {[v]}]> g = g).
  { apply insert_id. rewrite Hgu. f_equal. set_solver. }
  rewrite H1. apply insert_id. rewrite Hgv. f_equal. set_solver.
Qed.


(** ** Breadth-first search computes reachability *)

Lemma closed_set_connected (g : Graph) (X : gset nat) s v :
  (∀ a b, a ∈ X → b ∈ neighbors g a → b ∈ X) →
  s ∈ X → connected g s v → v ∈ X.
Proof.
  intros Hcl Hs Hc. induction Hc as [|a b c Hab _ IH]; [done|].
  apply IH. by eapply Hcl.
Qed.

Lemma elem_of_frontier (g : Graph) (X : gset nat) v :
  v ∈ ⋃ (neighbors g <$> elements X) ↔ ∃ u, u ∈ X ∧ v ∈ neighbors g u.
Proof.
  rewrite elem_of_union_list. split.
  - intros (Y & HY & Hv). apply list_elem_of_fmap in HY as (u & -> & Hu).
    apply elem_of_elements in Hu. eauto.
  - intros (u & Hu & Hv). exists (neighbors g u). split; [|done].
    apply list_elem_of_fmap. exists u. split; [done|]. by apply elem_of_elements.
Qed.

Lemma bfs_levels_spec fuel (g : Graph) s (seen nextlevel : gset nat) :
  closed g →
  (∀ v, v ∈ seen ∪ nextlevel → connected g s v) →
  s ∈ seen ∪ nextlevel →
  (∀ a b, a ∈ seen → b ∈ neighbors g a → b ∈ seen ∪ nextlevel) →
  seen ∪ nextlevel ⊆ dom g →
  (nextlevel = ∅ ∨ size (dom g ∖ seen) + 2 ≤ fuel) →
  ∀ v, v ∈ bfs_levels fuel g seen nextlevel ↔ connected g s v.
Proof.
  intros Hclosed. revert seen nextlevel.
  assert (Hdone : ∀ seen : gset nat,
    (∀ v, v ∈ seen → connected g s v) → s ∈ seen →
    (∀ a b, a ∈ seen → b ∈ neighbors g a → b ∈ seen) →
    ∀ v, v ∈ seen ↔ connected g s v).
  { intros seen Hsound Hs Hcl v. split; [apply Hsound|].
    by apply closed_set_connected. }
  induction fuel as [|fuel IH]; intros seen nextlevel Hsound Hs Hcl Hdom Hfuel.
  - destruct Hfuel as [->|?]; [|lia]. cbn [bfs_levels].
    apply Hdone; set_solver.
  - cbn [bfs_levels]. case_decide as Hnext.
    { subst nextlevel. apply Hdone; set_solver. }
    destruct Hfuel as [?|Hfuel]; [done|].
    set (thislevel := nextlevel ∖ seen).
    assert (Heq : seen ∪ thislevel = seen ∪ nextlevel).
    { apply set_eq. intros x. subst thislevel.
      destruct (decide (x ∈ seen)); set_solver. }
    apply IH.
    + intros v [Hv|Hv]%elem_of_union.
      * apply Hsound. set_solver.
      * apply elem_of_frontier in Hv as (u & Hu & Hv).
        apply rtc_r with u; [apply Hsound; set_solver | exact Hv].
    + set_solver.
    + intros a b Ha Hb. rewrite Heq in Ha. apply elem_of_union in Ha as [Ha|Ha].
      * rewrite Heq. apply elem_of_union_l. by eapply Hcl.
      * destruct (decide (a ∈ seen)) as [Hin|Hnin].
        -- rewrite Heq. apply elem_of_union_l. by eapply Hcl.
        -- apply elem_of_union_r, elem_of_frontier. exists a.
           split; [set_solver | done].
    + intros x [Hx|Hx]%elem_of_union; [set_solver|].
      apply elem_of_frontier in Hx as (u & Hu & Hx). by eapply Hclosed.
    + destruct (decide (thislevel = ∅)) as [Hempty|Hne].
      * left. rewrite Hempty, elements_empty. done.
      * right. apply set_choose_L in Hne as (x & Hx).
        assert (Hsub : dom g ∖ (seen ∪ thislevel) ⊂ dom g ∖ seen).
        { split; [set_solver|]. intros Hcontra.
          assert (x ∈ dom g ∖ seen) as Hx' by set_solver.
          apply Hcontra in Hx'. set_solver. }
        apply subset_size in Hsub. lia.
Qed.

Lemma plain_bfs_spec (g : Graph) s v :
  closed g → s ∈ dom g → (v ∈ plain_bfs g s ↔ connected g s v).
Proof.
  intros Hclosed Hs. unfold plain_bfs. apply bfs_levels_spec.
  - done.
  - intros x Hx. assert (x = s) as -> by set_solver. apply rtc_refl.
  - set_solver.
  - set_solver.
  - set_solver.
  - right. rewrite difference_empty_L, size_dom. lia.
Qed.

Lemma connected_in_dom (g : Graph) s v : closed g → s ∈ dom g → connected g s v → v ∈ dom g.
Proof.
  intros Hclosed Hs Hc. induction Hc as [|a b c Hab _ IH]; [done|].
  apply IH. by eapply Hclosed.
Qed.

Lemma plain_bfs_source (g : Graph) s : closed g → s ∈ dom g → s ∈ plain_bfs g s.
Proof. intros. apply plain_bfs_spec; [done..|apply rtc_refl]. Qed.

Lemma plain_bfs_dom (g : Graph) s : closed g → s ∈ dom g → plain_bfs g s ⊆ dom g.
Proof.
  intros Hclosed Hs v Hv. apply plain_bfs_spec in Hv; [|done..].
  by eapply connected_in_dom.
Qed.


(** ** The list of components *)

Lemma components_from_elem (g : Graph) vs seen c :
  c ∈ components_from g vs seen → ∃ v, v ∈ vs ∧ (v ∉ seen) ∧ c = plain_bfs g v.
Proof.
  revert seen. induction vs as [|w vs IH]; intros seen; cbn [components_from].
  - by intros ?%elem_of_nil.
  - case_decide as Hw.
    + intros (v & ? & ? & ?)%IH. exists v. split; [by right|done].
    + intros [->|Hc]%elem_of_cons.
      * exists w. split; [by left|done].
      * apply IH in Hc as (v & ? & ? & ?). exists v. split; [by right|set_solver].
Qed.

Lemma components_from_cover (g : Graph) vs seen v :
  (∀ w, w ∈ vs → w ∈ plain_bfs g w) → v ∈ vs →
  v ∈ seen ∨ ∃ c, c ∈ components_from g vs seen ∧ v ∈ c.
Proof.
  revert seen. induction vs as [|w vs IH]; intros seen Hsrc Hv; cbn [components_from].
  - by apply elem_of_nil in Hv.
  - assert (Hsrc' : ∀ w', w' ∈ vs → w' ∈ plain_bfs g w') by (intros; apply Hsrc; by right).
    apply elem_of_cons in Hv as [->|Hv]; case_decide as Hw.
    + by left.
    + right. exists (plain_bfs g w). split; [by left|]. apply Hsrc. by left.
    + by apply IH.
    + destruct (IH (seen ∪ plain_bfs g w) Hsrc' Hv) as [[?|?]%elem_of_union|(c & ? & ?)].
      * by left.
      * right. exists (plain_bfs g w). split; [by left|done].
      * right. exists c. split; [by right|done].
Qed.

Lemma connected_components_elem (g : Graph) c :
  c ∈ connected_components g → ∃ v, v ∈ dom g ∧ c = plain_bfs g v.
Proof.
  intros (v & Hv & _ & ->)%components_from_elem. exists v.
  split; [by apply elem_of_elements in Hv | done].
Qed.

Lemma connected_components_cover (g : Graph) v :
  closed g → v ∈ dom g → ∃ c, c ∈ connected_components g ∧ v ∈ c.
Proof.
  intros Hclosed Hv.
  destruct (components_from_cover g (elements (dom g)) ∅ v) as [?|?]; [| |set_solver|done].
  - intros w Hw%elem_of_elements. by apply plain_bfs_source.
  - by apply elem_of_elements.
Qed.

Lemma connected_mono (g g' : Graph) s v :
  (∀ u, neighbors g u ⊆ neighbors g' u) → connected g s v → connected g' s v.
Proof.
  intros Hsub Hc. induction Hc as [|a b c Hab _ IH]; [apply rtc_refl|].
  eapply rtc_l; [|exact IH]. by apply Hsub.
Qed.

(** ** [max] of a list of ints *)

Lemma fold_left_max_ge l (x : Z) :
  (x ≤ fold_left Z.max l x)%Z ∧ ∀ y, y ∈ l → (y ≤ fold_left Z.max l x)%Z.
Proof.
  revert x. induction l as [|a l IH]; intros x; cbn [fold_left].
  - split; [lia|]. by intros y ?%elem_of_nil.
  - destruct (IH (Z.max x a)) as [H1 H2]. split; [lia|].
    intros y [->|Hy]%elem_of_cons; [lia | by apply H2].
Qed.

Lemma fold_left_max_elem l (x : Z) : fold_left Z.max l x ∈ x :: l.
Proof.
  revert x. induction l as [|a l IH]; intros x; cbn [fold_left].
  - by left.
  - specialize (IH (Z.max x a)). apply elem_of_cons in IH as [Heq|Hin].
    + rewrite Heq. destruct (Z.max_spec x a) as [[_ ->]|[_ ->]]; [right; by left | by left].
    + right. by right.
Qed.

Lemma max_spec l m : Py.max l = Ok m → m ∈ l ∧ ∀ y, y ∈ l → (y ≤ m)%Z.
Proof.
  destruct l as [|x l]; [done|]. cbn [Py.max]. intros [= <-]. split.
  - apply fold_left_max_elem.
  - pose proof (fold_left_max_ge l x) as [H1 H2].
    intros y [->|Hy]%elem_of_cons; [done | by apply H2].
Qed.

Lemma max_nonempty l : l ≠ [] → ∃ m, Py.max l = Ok m.
Proof. destruct l; [done | eauto]. Qed.

(** ** The biggest cluster *)

Lemma biggest_exists (g : Graph) :
  closed g → dom g ≠ ∅ → ∃ m, Py.max (cluster_sizes g) = Ok m.
Proof.
  intros Hclosed (v & Hv)%set_choose_L. apply max_nonempty.
  destruct (connected_components_cover g v Hclosed Hv) as (c & Hc & _).
  unfold cluster_sizes. intros Hnil%fmap_nil_inv. rewrite Hnil in Hc.
  by apply elem_of_nil in Hc.
Qed.

Lemma biggest_bounds (g : Graph) m :
  closed g → Py.max (cluster_sizes g) = Ok m → (1 ≤ m ≤ Z.of_nat (size (dom g)))%Z.
Proof.
  intros Hclosed [Hm _]%max_spec.
  apply list_elem_of_fmap in Hm as (c & -> & Hc).
  apply connected_components_elem in Hc as (v & Hv & ->).
  pose proof (plain_bfs_source g v Hclosed Hv) as Hsrc.
  pose proof (plain_bfs_dom g v Hclosed Hv) as Hsub.
  apply subseteq_size in Hsub.
  assert (size (plain_bfs g v) ≠ 0).
  { intros Hz%size_empty_inv. set_solver. }
  lia.
Qed.

Lemma biggest_mono (g g' : Graph) m m' :
  closed g → closed g' → dom g ⊆ dom g' →
  (∀ u, neighbors g u ⊆ neighbors g' u) →
  Py.max (cluster_sizes g) = Ok m → Py.max (cluster_sizes g') = Ok m' →
  (m ≤ m')%Z.
Proof.
  intros Hclosed Hclosed' Hdom Hnb [Hm _]%max_spec [_ Hm']%max_spec.
  apply list_elem_of_fmap in Hm as (c & -> & Hc).
  apply connected_components_elem in Hc as (v & Hv & ->).
  destruct (connected_components_cover g' v Hclosed' (Hdom _ Hv)) as (c' & Hc' & Hvc').
  transitivity (Z.of_nat (size c')).
  - apply inj_le, subseteq_size. intros x Hx.
    apply plain_bfs_spec in Hx; [|done..].
    apply connected_components_elem in Hc' as (w & Hw & ->).
    apply plain_bfs_spec in Hvc'; [|done..].
    apply plain_bfs_spec; [done..|].
    etransitivity; [exact Hvc'|]. by eapply connected_mono.
  - apply Hm'. apply list_elem_of_fmap. eauto.
Qed.

End nx_facts.

(** * Components as a partition *)
Module partition_facts.
Import nx nx_facts.

Lemma connected_sym (g : Graph) u v : symmetric g → connected g u v → connected g v u.
Proof.
  intros Hs Hc. induction Hc as [|a b c Hab _ IH]; [apply rtc_refl|].
  eapply rtc_r; [exact IH|]. by apply Hs.
Qed.

Lemma plain_bfs_saturated (g : Graph) v :
  closed g → v ∈ dom g → saturated g (plain_bfs g v).
Proof.
  intros Hc Hv x y Hx Hxy. apply plain_bfs_spec in Hx; [|done..].
  apply plain_bfs_spec; [done..|]. by etransitivity.
Qed.

Lemma saturated_union (g : Graph) X Y : saturated g X → saturated g Y → saturated g (X ∪ Y).
Proof. intros HX HY x y [?|?]%elem_of_union Hc; set_solver. Qed.

Lemma plain_bfs_disjoint (g : Graph) v seen :
  closed g → symmetric g → v ∈ dom g → saturated g seen → v ∉ seen →
  plain_bfs g v ## seen.
Proof.
  intros Hc Hs Hv Hsat Hnot y Hy Hyseen. apply Hnot.
  apply plain_bfs_spec in Hy; [|done..].
  apply (Hsat y v Hyseen). by apply connected_sym.
Qed.

Lemma components_from_partition (g : Graph) vs seen :
  closed g → symmetric g → (∀ v, v ∈ vs → v ∈ dom g) → saturated g seen →
  let cs := components_from g vs seen in
  (∀ c, c ∈ cs → c ## seen ∧ c ⊆ dom g ∧ c ≠ ∅) ∧
  (∀ i j c1 c2 v, cs !! i = Some c1 → cs !! j = Some c2 → v ∈ c1 → v ∈ c2 → i = j) ∧
  size (⋃ cs) = sum_list (size <$> cs) ∧
  (∀ v, v ∈ vs → v ∈ ⋃ cs ∪ seen).
Proof.
  intros Hc Hs. revert seen. induction vs as [|w vs IH]; intros seen Hvs Hsat;
    cbn [components_from].
  - cbn. split_and!; try done.
    + by intros c ?%elem_of_nil.
    + by intros v ?%elem_of_nil.
  - assert (Hvs' : ∀ v, v ∈ vs → v ∈ dom g) by (intros; apply Hvs; by right).
    case_decide as Hw.
    + destruct (IH seen Hvs' Hsat) as (H1 & H2 & H3 & H4). split_and!; try done.
      intros v [->|Hv]%elem_of_cons; [set_solver | by apply H4].
    + assert (Hwd : w ∈ dom g) by (apply Hvs; by left).
      pose proof (plain_bfs_saturated g w Hc Hwd) as Hsatw.
      pose proof (plain_bfs_disjoint g w seen Hc Hs Hwd Hsat Hw) as Hdisj.
      pose proof (plain_bfs_source g w Hc Hwd) as Hsrc.
      destruct (IH (seen ∪ plain_bfs g w) Hvs' (saturated_union _ _ _ Hsat Hsatw))
        as (H1 & H2 & H3 & H4).
      set (cs := components_from g vs (seen ∪ plain_bfs g w)) in *.
      assert (Hrest : ∀ v, v ∈ ⋃ cs → v ∉ plain_bfs g w).
      { intros v (c & Hcin & Hvc)%elem_of_union_list Hvw.
        destruct (H1 c Hcin) as (Hd & _ & _). set_solver. }
      split_and!.
      * intros c [->|Hcin]%elem_of_cons.
        -- split_and!; [done | by apply plain_bfs_dom | set_solver].
        -- destruct (H1 c Hcin) as (Hd & ? & ?). split_and!; [set_solver|done..].
      * intros [|i] [|j] c1 c2 v; cbn [lookup list_lookup]; intros E1 E2 V1 V2.
        -- done.
        -- injection E1 as <-. exfalso. apply (Hrest v); [|done].
           apply elem_of_union_list. exists c2. split; [|done].
           by eapply list_elem_of_lookup_2.
        -- injection E2 as <-. exfalso. apply (Hrest v); [|done].
           apply elem_of_union_list. exists c1. split; [|done].
           by eapply list_elem_of_lookup_2.
        -- f_equal. by eapply H2.
      * cbn [union_list foldr fmap list_fmap sum_list sum_list_with].
        rewrite size_union by set_solver. fold (union_list cs).
        change (foldr union ∅ cs) with (⋃ cs). rewrite H3. done.
      * intros v [->|Hv]%elem_of_cons; [set_solver|].
        specialize (H4 v Hv). set_solver.
Qed.

End partition_facts.

(** * Connectivity after an added edge *)
Section merging.
Import nx nx_facts partition_facts.

Lemma edge_add_edge (g : Graph) a b u v :
  edge (add_edge g a b) u v ↔ edge g u v ∨ (u = a ∧ v = b) ∨ (u = b ∧ v = a).
Proof.
  unfold edge. rewrite neighbors_add_edge. split.
  - intros Hv. repeat (apply elem_of_union in Hv as [Hv|Hv]); [by left| |];
      case_decide; set_solver.
  - intros [Hv|[[-> ->]|[-> ->]]]; repeat case_decide; set_solver.
Qed.

(** What an added edge connects: what was connected before, and whatever
    reaches one end with whatever the other end reaches. *)
Lemma connected_add_edge (g : Graph) a b u v :
  connected (add_edge g a b) u v ↔
  connected g u v ∨ (connected g u a ∧ connected g b v)
                  ∨ (connected g u b ∧ connected g a v).
Proof.
  split.
  - intros Hc. induction Hc as [x|x y z Hxy _ IH]; [left; apply rtc_refl|].
    apply edge_add_edge in Hxy as [Hxy|[[-> ->]|[-> ->]]].
    + destruct IH as [IH|[[IH1 IH2]|[IH1 IH2]]].
      * left. by eapply rtc_l.
      * right; left. split; [by eapply rtc_l|done].
      * right; right. split; [by eapply rtc_l|done].
    + destruct IH as [IH|[[IH1 IH2]|[IH1 IH2]]].
      * right; left. split; [apply rtc_refl|done].
      * right; left. split; [apply rtc_refl|done].
      * by left.
    + destruct IH as [IH|[[IH1 IH2]|[IH1 IH2]]].
      * right; right. split; [apply rtc_refl|done].
      * by left.
      * right; right. split; [apply rtc_refl|done].
  - assert (Hmono : ∀ x y, connected g x y → connected (add_edge g a b) x y).
    { intros x y. apply connected_mono. intros w. rewrite neighbors_add_edge. set_solver. }
    assert (Hab : connected (add_edge g a b) a b).
    { apply rtc_once, edge_add_edge. right; left. done. }
    assert (Hba : connected (add_edge g a b) b a).
    { apply rtc_once, edge_add_edge. right; right. done. }
    intros [Hc|[[H1 H2]|[H1 H2]]].
    + by apply Hmono.
    + etransitivity; [by apply Hmono|]. etransitivity; [exact Hab|]. by apply Hmono.
    + etransitivity; [by apply Hmono|]. etransitivity; [exact Hba|]. by apply Hmono.
Qed.

Lemma component_is_class (g : Graph) c u v :
  closed g → symmetric g → c ∈ connected_components g → u ∈ c →
  (v ∈ c ↔ connected g u v).
Proof.
  intros Hc Hs (w & Hw & ->)%connected_components_elem Hu.
  apply plain_bfs_spec in Hu; [|done..]. rewrite plain_bfs_spec by done. split.
  - intros Hv. etransitivity; [|exact Hv]. by apply connected_sym.
  - intros Huv. by etransitivity.
Qed.

End merging.

(** * Invariants of the model *)
Section invariants.
Context {G : Type} `{RandomSource G}.
Local Open Scope Z_scope.
Import F64_facts nx_facts.

Lemma series_inv_nil d lo hi : series_inv d lo hi [].
Proof. split; intros *; [|intros _]; by rewrite lookup_nil. Qed.

Lemma series_inv_weaken d lo hi hi' s :
  hi ≤ hi' → series_inv d lo hi s → series_inv d lo hi' s.
Proof.
  intros Hle [H1 H2]. split; [|done].
  intros i x Hx. destruct (H1 i x Hx) as (a & ? & ?). exists a. split; [lia|done].
Qed.

Lemma series_inv_snoc d lo hi s y :
  0 ≤ lo ≤ hi → 0 < d → F64.int_truediv hi d = Ok y →
  series_inv d lo hi s → series_inv d lo hi (s ++ [y]).
Proof.
  intros Hlo Hd Hy [H1 H2].
  assert (Hlast : ∀ i x, s !! i = Some x → F64.le x y).
  { intros i x Hx. destruct (H1 i x Hx) as (a & Ha & Hax).
    destruct (int_truediv_mono a hi d y ltac:(lia) Hd Hy) as (x' & Hx' & Hle).
    congruence. }
  assert (Hyy : F64.le y y).
  { destruct (int_truediv_mono hi hi d y ltac:(lia) Hd Hy) as (x' & Hx' & Hle).
    congruence. }
  split.
  - intros i x Hx. apply lookup_app_Some in Hx as [Hx|[_ Hx]]; [eauto|].
    apply list_lookup_singleton_Some in Hx as [_ <-]. exists hi. split; [lia|done].
  - intros i j x z Hij Hx Hz.
    apply lookup_app_Some in Hx as [Hx|[Hi Hx]];
      apply lookup_app_Some in Hz as [Hz|[Hj Hz]].
    + by eapply H2.
    + apply list_lookup_singleton_Some in Hz as [_ <-]. by eapply Hlast.
    + apply lookup_lt_Some in Hz. lia.
    + apply list_lookup_singleton_Some in Hx as [_ <-].
      apply list_lookup_singleton_Some in Hz as [_ <-]. done.
Qed.


Lemma biggest_spec (g : nx.Graph) :
  nx.closed g → dom g ≠ ∅ →
  Py.max (nx.cluster_sizes g) = Ok (biggest g) ∧ 1 ≤ biggest g ≤ Z.of_nat (size (dom g)).
Proof.
  intros Hc Hd. destruct (biggest_exists g Hc Hd) as (b & Hb).
  unfold biggest. rewrite Hb. split; [done|]. by apply biggest_bounds.
Qed.

Lemma biggest_add_edge (g : nx.Graph) a b :
  nx.closed g → a ∈ dom g → b ∈ dom g →
  biggest g ≤ biggest (nx.add_edge g a b).
Proof.
  intros Hc Ha Hb.
  assert (Hd : dom g ≠ ∅) by set_solver.
  assert (Hd' : dom (nx.add_edge g a b) ≠ ∅) by (rewrite dom_add_edge; set_solver).
  pose proof (add_edge_closed g a b Hc) as Hc'.
  destruct (biggest_spec g Hc Hd) as [Hm _].
  destruct (biggest_spec _ Hc' Hd') as [Hm' _].
  eapply (biggest_mono g (nx.add_edge g a b)); try done.
  - rewrite dom_add_edge. set_solver.
  - intros u. rewrite neighbors_add_edge. set_solver.
Qed.

Lemma size_nodes (m : ButtonModel G) :
  wf m → Z.of_nat (size (dom (buttons m))) = Z.max 0 (n (p m)).
Proof.
  intros Hwf. rewrite (wf_nodes m Hwf), (wf_agents m Hwf).
  rewrite size_list_to_set by apply NoDup_seq. rewrite length_seq. lia.
Qed.

Lemma setup_wf prm (g : G) m : setup prm g = Ok m → wf m.
Proof.
  intros [= <-]. unfold add_agents, AgentList.
  assert (Hdom : ∀ l (g0 : nx.Graph), dom (foldl nx.add_node g0 l) = list_to_set l ∪ dom g0).
  { induction l as [|a l IH]; intros g0; cbn [foldl list_to_set]; [set_solver|].
    rewrite IH, dom_add_node. set_solver. }
  assert (Hnb : ∀ l (g0 : nx.Graph) u,
    nx.neighbors (foldl nx.add_node g0 l) u = nx.neighbors g0 u).
  { induction l as [|a l IH]; intros g0 u; cbn [foldl]; [done|].
    by rewrite IH, neighbors_add_node. }
  assert (Hempty : ∀ u, nx.neighbors (∅ : nx.Graph) u = ∅).
  { intros u. unfold nx.neighbors. by rewrite lookup_empty. }
  split; cbn [p buttons agents threads log max_cluster_size threads_to_button].
  - done.
  - rewrite Hdom. set_solver.
  - intros u v. rewrite Hnb, Hempty. set_solver.
  - intros u v. rewrite Hnb, Hempty. set_solver.
  - intros u. rewrite Hnb, Hempty. set_solver.
  - lia.
  - apply series_inv_nil.
  - apply series_inv_nil.
  - done.
Qed.

Lemma tie_spec (m m' : ButtonModel G) :
  wf m → tie m = Ok m' →
  ∃ a b g', random2 (agents m) (random m) = Ok (a, b, g') ∧
    a ≠ b ∧ a ∈ agents m ∧ b ∈ agents m ∧
    m' = {| p := p m; buttons := nx.add_edge (buttons m) a b; agents := agents m;
            threads := threads m + 1; log := log m; random := g' |}.
Proof.
  intros Hwf. unfold tie.
  destruct (random2 (agents m) (random m)) as [[[a b] g']|e] eqn:Hr; [|done].
  cbn. intros [= <-]. exists a, b, g'. split; [done|].
  destruct (random2_sound _ _ _ _ _ Hr) as (i & j & Hij & Hi & Hj).
  split; [|split; [by eapply list_elem_of_lookup_2|split; [by eapply list_elem_of_lookup_2|done]]].
  rewrite (wf_agents m Hwf) in Hi, Hj.
  apply lookup_seq in Hi as [-> _]. apply lookup_seq in Hj as [-> _]. lia.
Qed.

Lemma tie_wf (m m' : ButtonModel G) : wf m → tie m = Ok m' → wf m'.
Proof.
  intros Hwf Ht. destruct (tie_spec m m' Hwf Ht) as (a & b & g' & _ & Hab & Ha & Hb & ->).
  assert (Ha' : a ∈ dom (buttons m)) by (rewrite (wf_nodes m Hwf); set_solver).
  assert (Hb' : b ∈ dom (buttons m)) by (rewrite (wf_nodes m Hwf); set_solver).
  destruct Hwf as [Hag Hnodes Hcl Hsym Hlf Hth Hratio Hshare Hlen].
  split; cbn [p buttons agents threads log].
  - done.
  - rewrite dom_add_edge, <- Hnodes. set_solver.
  - by apply add_edge_closed.
  - by apply add_edge_symmetric.
  - by apply add_edge_loop_free.
  - lia.
  - eapply series_inv_weaken; [|done]. lia.
  - eapply series_inv_weaken; [|done]. by apply biggest_add_edge.
  - done.
Qed.


Lemma for_range_tie k (m m' : ButtonModel G) :
  wf m → for_range k tie m = Ok m' →
  wf m' ∧ p m' = p m ∧ log m' = log m ∧ agents m' = agents m ∧
  threads m' = threads m + Z.of_nat k.
Proof.
  revert m. induction k as [|k IH]; intros m Hwf; cbn [for_range].
  - intros [= <-]. split_and!; [done..|lia].
  - destruct (tie m) as [m1|e] eqn:Ht; [|done]. cbn. intros Hrest.
    pose proof (tie_wf m m1 Hwf Ht) as Hwf1.
    destruct (tie_spec m m1 Hwf Ht) as (a & b & g' & _ & _ & _ & _ & Hm1).
    destruct (IH m1 Hwf1 Hrest) as (? & -> & -> & -> & ->).
    subst m1. cbn [p log agents threads]. split_and!; [done..|lia].
Qed.

Lemma step_spec (m m' : ButtonModel G) :
  wf m → step m = Ok m' →
  ∃ k, edges_per_step (p m) = Ok k ∧ for_range (Z.to_nat k) tie m = Ok m' ∧
    wf m' ∧ p m' = p m ∧ log m' = log m ∧ agents m' = agents m ∧
    threads m' = threads m + Z.max 0 k.
Proof.
  intros Hwf. unfold step.
  destruct (edges_per_step (p m)) as [k|e]; [|done]. cbn. intros Hk.
  exists k. split; [done|]. split; [done|].
  destruct (for_range_tie _ _ _ Hwf Hk) as (? & ? & ? & ? & ->).
  split_and!; [done..|lia].
Qed.

Lemma max_ok_nodes (g : nx.Graph) b :
  Py.max (nx.cluster_sizes g) = Ok b → dom g ≠ ∅.
Proof.
  intros [Hb _]%max_spec. apply list_elem_of_fmap in Hb as (c & _ & Hc).
  apply connected_components_elem in Hc as (v & Hv & _). set_solver.
Qed.

Lemma update_spec (m m' : ButtonModel G) :
  wf m → update m = Ok m' →
  ∃ share ratio,
    0 < n (p m) ∧ 1 ≤ biggest (buttons m) ≤ n (p m) ∧
    Py.max (nx.cluster_sizes (buttons m)) = Ok (biggest (buttons m)) ∧
    F64.int_truediv (biggest (buttons m)) (n (p m)) = Ok share ∧
    F64.int_truediv (threads m) (n (p m)) = Ok ratio ∧
    m' = record_threads_to_button ratio (record_max_cluster_size share m) ∧
    wf m'.
Proof.
  intros Hwf. unfold update. fold (nx.cluster_sizes (buttons m)).
  destruct (Py.max (nx.cluster_sizes (buttons m))) as [b|e] eqn:Hb; [|done]. cbn.
  pose proof (max_ok_nodes _ _ Hb) as Hd.
  destruct (biggest_spec _ (wf_closed m Hwf) Hd) as [Hbig Hrange].
  rewrite Hb in Hbig. injection Hbig as ->.
  rewrite (size_nodes m Hwf) in Hrange.
  destruct (F64.int_truediv (biggest (buttons m)) (n (p m))) as [share|e] eqn:Hs; [|done].
  cbn. destruct (F64.int_truediv (threads m) (n (p m))) as [ratio|e] eqn:Hr; [|done].
  cbn. intros [= <-]. exists share, ratio.
  assert (Hn : 0 < n (p m)) by lia.
  split_and!; try done; try lia.
  destruct Hwf as [Hag Hnodes Hcl Hsym Hlf Hth Hratio Hshare Hlen].
  split; cbn [p buttons agents threads log max_cluster_size threads_to_button
         record_threads_to_button record_max_cluster_size]; try done.
  - apply series_inv_snoc; [lia|done..].
  - apply series_inv_snoc; [lia|done..].
  - rewrite !length_app. cbn. lia.
Qed.

Lemma call_wf c (m m' : ButtonModel G) : wf m → call_method c m = Ok m' → wf m'.
Proof.
  intros Hwf. destruct c; cbn [call_method].
  - intros (k & _ & _ & ? & _)%step_spec; done.
  - intros (? & ? & _ & _ & _ & _ & _ & _ & ?)%update_spec; done.
Qed.

Lemma call_params c (m m' : ButtonModel G) :
  wf m → call_method c m = Ok m' → p m' = p m ∧ agents m' = agents m.
Proof.
  intros Hwf. destruct c; cbn [call_method].
  - intros (k & _ & _ & _ & ? & _ & ? & _)%step_spec; done.
  - intros (? & ? & _ & _ & _ & _ & _ & -> & _)%update_spec; done.
Qed.

Lemma calls_wf cs (m m' : ButtonModel G) :
  wf m → calls cs m = Ok m' → wf m' ∧ p m' = p m.
Proof.
  revert m. induction cs as [|c cs IH]; intros m Hwf; cbn [calls].
  - by intros [= <-].
  - destruct (call_method c m) as [m1|e] eqn:Hc; [|done]. cbn. intros Hrest.
    destruct (IH m1 (call_wf c m m1 Hwf Hc) Hrest) as [? ->].
    split; [done|]. by apply (call_params c m m1).
Qed.


(** ** Nothing fails on a valid configuration *)

Lemma count_steps_nonneg cs : 0 ≤ count_steps cs.
Proof. induction cs as [|[] cs IH]; cbn [count_steps]; lia. Qed.

Lemma agents_length (m : ButtonModel G) : wf m → length (agents m) = Z.to_nat (n (p m)).
Proof. intros Hwf. by rewrite (wf_agents m Hwf), length_seq. Qed.

Lemma for_range_tie_total k (m : ButtonModel G) :
  wf m → 2 ≤ n (p m) → ∃ m', for_range k tie m = Ok m'.
Proof.
  revert m. induction k as [|k IH]; intros m Hwf Hn; cbn [for_range]; [eauto|].
  destruct (random2_total (agents m) (random m)) as (a & b & g' & Hr).
  { rewrite agents_length by done. lia. }
  assert (Ht : tie m = Ok {| p := p m; buttons := nx.add_edge (buttons m) a b;
    agents := agents m; threads := threads m + 1; log := log m; random := g' |}).
  { unfold tie. rewrite Hr. done. }
  rewrite Ht. cbn. apply IH; [by eapply tie_wf|done].
Qed.

Lemma step_total (m : ButtonModel G) k :
  wf m → 2 ≤ n (p m) → edges_per_step (p m) = Ok k → ∃ m', step m = Ok m'.
Proof.
  intros Hwf Hn Hk. unfold step. rewrite Hk. cbn. by apply for_range_tie_total.
Qed.

Lemma nodes_nonempty (m : ButtonModel G) : wf m → 1 ≤ n (p m) → dom (buttons m) ≠ ∅.
Proof.
  intros Hwf Hn Hempty. pose proof (size_nodes m Hwf) as Hs.
  rewrite Hempty, size_empty in Hs. lia.
Qed.

Lemma update_total (m : ButtonModel G) bound y :
  wf m → 1 ≤ n (p m) → threads m ≤ bound →
  F64.int_truediv bound (n (p m)) = Ok y → ∃ m', update m = Ok m'.
Proof.
  intros Hwf Hn Hb Hy. unfold update. fold (nx.cluster_sizes (buttons m)).
  destruct (biggest_spec _ (wf_closed m Hwf) (nodes_nonempty m Hwf Hn)) as [Hbig Hrange].
  rewrite (size_nodes m Hwf) in Hrange. rewrite Hbig. cbn.
  destruct (int_truediv_le_one (biggest (buttons m)) (n (p m))) as (share & -> & _);
    [lia..|].
  cbn.
  destruct (int_truediv_mono (threads m) bound (n (p m)) y) as (ratio & -> & _);
    [pose proof (wf_threads m Hwf); lia | lia | done |].
  cbn. eauto.
Qed.

Lemma calls_threads cs (m m' : ButtonModel G) k :
  wf m → edges_per_step (p m) = Ok k → calls cs m = Ok m' →
  threads m' = threads m + count_steps cs * Z.max 0 k.
Proof.
  revert m. induction cs as [|c cs IH]; intros m Hwf Hk; cbn [calls count_steps].
  - intros [= <-]. lia.
  - destruct (call_method c m) as [m1|e] eqn:Hc; [|done]. cbn. intros Hrest.
    pose proof (call_wf c m m1 Hwf Hc) as Hwf1.
    destruct (call_params c m m1 Hwf Hc) as [Hp _].
    rewrite (IH m1 Hwf1 ltac:(by rewrite Hp) Hrest).
    destruct c; cbn [call_method] in Hc.
    + apply step_spec in Hc as (k' & Hk' & _ & _ & _ & _ & _ & ->); [|done].
      rewrite Hk in Hk'. injection Hk' as <-. lia.
    + apply update_spec in Hc as (? & ? & _ & _ & _ & _ & _ & -> & _); [|done].
      cbn [threads record_threads_to_button record_max_cluster_size]. lia.
Qed.

Lemma calls_total cs (m : ButtonModel G) k y :
  wf m → 2 ≤ n (p m) → edges_per_step (p m) = Ok k →
  F64.int_truediv (threads m + count_steps cs * Z.max 0 k) (n (p m)) = Ok y →
  ∃ m', calls cs m = Ok m'.
Proof.
  revert m. induction cs as [|c cs IH]; intros m Hwf Hn Hk Hy; cbn [calls]; [eauto|].
  pose proof (count_steps_nonneg cs) as Hcs.
  assert (Hc : ∃ m1, call_method c m = Ok m1).
  { destruct c; cbn [call_method].
    - by eapply step_total.
    - eapply update_total; [done|lia| |exact Hy]. cbn [count_steps]. nia. }
  destruct Hc as (m1 & Hc). rewrite Hc. cbn.
  pose proof (call_wf c m m1 Hwf Hc) as Hwf1.
  destruct (call_params c m m1 Hwf Hc) as [Hp _].
  apply IH; [done|by rewrite Hp|by rewrite Hp|]. rewrite Hp.
  destruct c; cbn [call_method count_steps] in *.
  - apply step_spec in Hc as (k' & Hk' & _ & _ & _ & _ & _ & ->); [|done].
    rewrite Hk in Hk'. injection Hk' as <-.
    replace (threads m + Z.max 0 k + count_steps cs * Z.max 0 k)
      with (threads m + (1 + count_steps cs) * Z.max 0 k) by lia. done.
  - apply update_spec in Hc as (? & ? & _ & _ & _ & _ & _ & -> & _); [|done].
    cbn [threads record_threads_to_button record_max_cluster_size]. done.
Qed.

(** ** The driver of the specification *)

Lemma for_range_run_step k (m : ButtonModel G) :
  for_range k run_step m = calls (schedule k) m.
Proof.
  revert m. induction k as [|k IH]; intros m; [done|].
  cbn [for_range]. unfold schedule. cbn [replicate concat app calls call_method].
  unfold run_step. destruct (step m) as [m1|e]; [|done]. cbn.
  destruct (update m1) as [m2|e]; [|done]. cbn. apply IH.
Qed.

Lemma count_steps_schedule k : count_steps (schedule k) = Z.of_nat k.
Proof.
  induction k as [|k IH]; [done|]. unfold schedule in *.
  cbn [replicate concat app count_steps]. rewrite IH. lia.
Qed.

End invariants.

Section reachable_states.
Context {G : Type} `{RandomSource G}.
Local Open Scope Z_scope.
Import F64_facts nx_facts.

Lemma biggest_le_n (m : ButtonModel G) :
  wf m → 1 ≤ biggest (buttons m) → biggest (buttons m) ≤ n (p m) ∧ 0 < n (p m).
Proof.
  intros Hwf Hb. unfold biggest in *.
  destruct (Py.max (nx.cluster_sizes (buttons m))) as [b|e] eqn:Hmax; [|lia].
  pose proof (max_ok_nodes _ _ Hmax) as Hd.
  destruct (biggest_spec _ (wf_closed m Hwf) Hd) as [Hbig Hrange].
  rewrite Hmax in Hbig. injection Hbig as Hbig. rewrite <- Hbig in Hrange.
  rewrite (size_nodes m Hwf) in Hrange. lia.
Qed.

Lemma reachable_wf prm (g : G) m0 cs m :
  setup prm g = Ok m0 → calls cs m0 = Ok m → wf m ∧ p m = prm.
Proof.
  intros Hs Hc. pose proof (setup_wf _ _ _ Hs) as Hwf0.
  destruct (calls_wf cs m0 m Hwf0 Hc) as [Hwf ->]. split; [done|].
  by injection Hs as <-.
Qed.

Lemma run_step_log (m m' : ButtonModel G) :
  wf m → run_step m = Ok m' →
  ∃ m1 ratio share, step m = Ok m1 ∧ wf m' ∧ p m' = p m ∧
    F64.int_truediv (threads m1) (n (p m)) = Ok ratio ∧
    F64.int_truediv (biggest (buttons m1)) (n (p m)) = Ok share ∧
    metrics_log m' = metrics_log m ++ [(ratio, share)].
Proof.
  intros Hwf. unfold run_step. destruct (step m) as [m1|e] eqn:Hs; [|done]. cbn.
  intros Hu. destruct (step_spec m m1 Hwf Hs) as (k & _ & _ & Hwf1 & Hp & Hlog & _ & _).
  destruct (update_spec m1 m' Hwf1 Hu) as (share & ratio & _ & _ & _ & Hsh & Hra & -> & Hwf').
  exists m1, ratio, share. rewrite Hp in *. split_and!; try done.
  unfold metrics_log.
  cbn [log record_threads_to_button record_max_cluster_size threads_to_button max_cluster_size].
  rewrite Hlog. rewrite zip_with_app by apply (wf_length m Hwf). done.
Qed.

Lemma for_range_run_step_length k (m m' : ButtonModel G) :
  wf m → for_range k run_step m = Ok m' →
  length (metrics_log m') = (length (metrics_log m) + k)%nat.
Proof.
  revert m. induction k as [|k IH]; intros m Hwf; cbn [for_range].
  - intros [= <-]. lia.
  - destruct (run_step m) as [m1|e] eqn:Hr; [|done]. cbn. intros Hrest.
    destruct (run_step_log m m1 Hwf Hr) as (? & ? & ? & _ & Hwf1 & _ & _ & _ & Hlog).
    rewrite (IH m1 Hwf1 Hrest), Hlog, length_app. cbn. lia.
Qed.

Lemma run_calls prm (g : G) :
  run prm g = (m0 ← setup prm g; calls (schedule (Z.to_nat (steps prm))) m0).
Proof. unfold run. cbn. apply for_range_run_step. Qed.

End reachable_states.

(** * Speeds that tie nothing *)
Section more_facts.
Context {G : Type} `{RandomSource G}.
Local Open Scope Z_scope.
Import F64_facts nx_facts.

Lemma binary_round_aux_sign s m e l :
  sign_or_nan s (binary_round_aux F64.prec F64.emax s m e l).
Proof.
  unfold binary_round_aux.
  destruct (shr_fexp F64.prec F64.emax m e l) as [mrs' e'].
  destruct (shr_fexp F64.prec F64.emax _ e' loc_Exact) as [mrs'' e''].
  destruct (shr_m mrs''); [done| |done].
  destruct (e'' <=? F64.emax - F64.prec); done.
Qed.

Lemma of_int_sign nn x : 0 ≤ nn → F64.of_int nn = Ok x → sign_or_nan false x.
Proof.
  intros Hn. unfold F64.of_int, binary_normalize.
  destruct nn as [|q|q]; [| |lia].
  - by intros [= <-].
  - unfold binary_round.
    destruct (shl_align q 0 (fexp F64.prec F64.emax (Z.pos (digits2_pos q) + 0))) as [mz ez].
    pose proof (binary_round_aux_sign false (Z.pos mz) ez loc_Exact) as Hs.
    destruct (binary_round_aux F64.prec F64.emax false (Z.pos mz) ez loc_Exact);
      intros [= <-]; done.
Qed.

Lemma to_int_sign x k : sign_or_nan true x → F64.to_int x = Ok k → k ≤ 0.
Proof.
  destruct x as [s|s| |s m e]; cbn [sign_or_nan F64.to_int]; try done.
  - intros _ [= <-]. lia.
  - intros -> [= <-]. cbn [cond_Zopp].
    assert (0 ≤ Z.shiftl (Z.pos m) e) by (rewrite Z.shiftl_nonneg; lia). lia.
Qed.

(** With a speed that is zero or negative the product [n * speed] is not
    positive, whatever the rounding. *)
Lemma edges_per_step_nonpositive prm k :
  0 ≤ n prm → F64.le (speed prm) F64.zero → edges_per_step prm = Ok k → k ≤ 0.
Proof.
  intros Hn Hle. unfold edges_per_step, F64.int_mul.
  destruct (F64.of_int (n prm)) as [x|e] eqn:Hx; [|done]. cbn.
  pose proof (of_int_sign _ _ Hn Hx) as Hsx.
  unfold F64.le, F64.zero in Hle.
  destruct (speed prm) as [s|s| |s m e]; try done.
  - (* speed is a zero *)
    destruct x as [sx|sx| |sx mx ex]; cbn [SFmul F64.to_int]; try done.
    all: intros [= <-]; lia.
  - (* minus infinity *)
    destruct s; [|done].
    destruct x as [sx|sx| |sx mx ex]; cbn [SFmul F64.to_int]; done.
  - (* a negative float *)
    destruct s; [|done].
    destruct x as [sx|sx| |sx mx ex]; cbn [SFmul sign_or_nan] in *; try done.
    + intros [= <-]; lia.
    + subst sx. cbn [xorb]. apply to_int_sign, binary_round_aux_sign.
Qed.

Lemma step_nonpositive_speed (m m' : ButtonModel G) :
  0 ≤ n (p m) → F64.le (speed (p m)) F64.zero → step m = Ok m' → m' = m.
Proof.
  intros Hn Hle. unfold step.
  destruct (edges_per_step (p m)) as [k|e] eqn:Hk; [|done]. cbn.
  pose proof (edges_per_step_nonpositive _ _ Hn Hle Hk).
  replace (Z.to_nat k) with 0%nat by lia. cbn [for_range]. by intros [= <-].
Qed.

Lemma calls_nonpositive_speed cs (m m' : ButtonModel G) :
  wf m → 0 ≤ n (p m) → F64.le (speed (p m)) F64.zero → calls cs m = Ok m' →
  buttons m' = buttons m ∧ threads m' = threads m.
Proof.
  revert m. induction cs as [|c cs IH]; intros m Hwf Hn Hle; cbn [calls].
  - by intros [= <-].
  - destruct (call_method c m) as [m1|e] eqn:Hc; [|done]. cbn. intros Hrest.
    pose proof (call_wf c m m1 Hwf Hc) as Hwf1.
    destruct (call_params c m m1 Hwf Hc) as [Hp _].
    destruct (IH m1 Hwf1 ltac:(by rewrite Hp) ltac:(by rewrite Hp) Hrest) as [-> ->].
    destruct c; cbn [call_method] in Hc.
    + by rewrite (step_nonpositive_speed m m1 Hn Hle Hc).
    + by destruct (update_spec m m1 Hwf Hc) as (? & ? & _ & _ & _ & _ & _ & -> & _).
Qed.

Lemma connected_no_edges (g : nx.Graph) s v :
  (∀ u, nx.neighbors g u = ∅) → nx.connected g s v → v = s.
Proof.
  intros Hno Hc. induction Hc as [|a b c Hab _ _]; [done|].
  unfold nx.edge in Hab. rewrite Hno in Hab. set_solver.
Qed.

Lemma biggest_no_edges (g : nx.Graph) :
  nx.closed g → dom g ≠ ∅ → (∀ u, nx.neighbors g u = ∅) → biggest g = 1.
Proof.
  intros Hc Hd Hno. destruct (biggest_spec g Hc Hd) as [Hmax _].
  apply max_spec in Hmax as [Hin _].
  apply list_elem_of_fmap in Hin as (c & -> & Hcin).
  apply connected_components_elem in Hcin as (v & Hv & ->).
  assert (Heq : nx.plain_bfs g v = {[v]}).
  { apply set_eq. intros w. rewrite (plain_bfs_spec g v w Hc Hv). split.
    - intros ?%(connected_no_edges g v w Hno). set_solver.
    - intros ->%elem_of_singleton. apply rtc_refl. }
  rewrite Heq, size_singleton. done.
Qed.

Lemma setup_no_edges prm (g : G) m0 u :
  setup prm g = Ok m0 → nx.neighbors (buttons m0) u = ∅.
Proof.
  intros [= <-]. cbn [buttons]. unfold add_agents.
  assert (Hnb : ∀ l (g0 : nx.Graph) w,
    nx.neighbors (foldl nx.add_node g0 l) w = nx.neighbors g0 w).
  { induction l as [|a l IH]; intros g0 w; cbn [foldl]; [done|].
    by rewrite IH, neighbors_add_node. }
  rewrite Hnb. unfold nx.neighbors. by rewrite lookup_empty.
Qed.

End more_facts.

(** * The records and the random source *)
Section draws.
Context {G1 G2 : Type} `{RandomSource G1} `{RandomSource G2}.
Context (R : G1 → G2 → Prop) (HR : same_draws R).

Lemma same_outcome_bind {A1 A2 B1 B2} (P : A1 → A2 → Prop) (Q : B1 → B2 → Prop)
    (r1 : result A1) (r2 : result A2) (k1 : A1 → result B1) (k2 : A2 → result B2) :
  same_outcome P r1 r2 → (∀ a1 a2, P a1 a2 → same_outcome Q (k1 a1) (k2 a2)) →
  same_outcome Q (r1 ≫= k1) (r2 ≫= k2).
Proof.
  destruct r1, r2; cbn; try done. intros HP Hk. by apply Hk.
Qed.

Lemma tie_same (m1 : ButtonModel G1) (m2 : ButtonModel G2) :
  same_model R m1 m2 → same_outcome (same_model R) (tie m1) (tie m2).
Proof.
  intros (Hp & Hb & Ha & Ht & Hl & Hr). unfold tie.
  eapply same_outcome_bind.
  - rewrite Ha. apply HR, Hr.
  - intros [[a1 b1] g1'] [[a2 b2] g2']. cbn. intros [[= -> ->] Hg].
    unfold same_model. cbn. rewrite Hp, Hb, Ha, Ht, Hl. done.
Qed.

Lemma for_range_same {S1 S2} (P : S1 → S2 → Prop) k
    (f1 : S1 → result S1) (f2 : S2 → result S2) :
  (∀ s1 s2, P s1 s2 → same_outcome P (f1 s1) (f2 s2)) →
  ∀ s1 s2, P s1 s2 → same_outcome P (for_range k f1 s1) (for_range k f2 s2).
Proof.
  intros Hf. induction k as [|k IH]; intros s1 s2 Hs; cbn [for_range]; [done|].
  eapply same_outcome_bind; [by apply Hf | done].
Qed.

Lemma step_same (m1 : ButtonModel G1) (m2 : ButtonModel G2) :
  same_model R m1 m2 → same_outcome (same_model R) (step m1) (step m2).
Proof.
  intros Hm. unfold step. destruct Hm as (Hp & Hrest). rewrite Hp.
  destruct (edges_per_step (p m2)) as [k|e]; cbn; [|done].
  apply for_range_same; [apply tie_same | by split].
Qed.

Lemma update_same (m1 : ButtonModel G1) (m2 : ButtonModel G2) :
  same_model R m1 m2 → same_outcome (same_model R) (update m1) (update m2).
Proof.
  intros (Hp & Hb & Ha & Ht & Hl & Hr). unfold update. rewrite Hb.
  destruct (Py.max _) as [b|e]; cbn; [|done]. rewrite Hp.
  destruct (F64.int_truediv b (n (p m2))) as [share|e]; cbn; [|done].
  rewrite Ht.
  destruct (F64.int_truediv (threads m2) (n (p m2))) as [ratio|e]; cbn; [|done].
  unfold same_model. cbn. rewrite Hb, Ha, Hl. done.
Qed.

Lemma calls_same cs (m1 : ButtonModel G1) (m2 : ButtonModel G2) :
  same_model R m1 m2 → same_outcome (same_model R) (calls cs m1) (calls cs m2).
Proof.
  revert m1 m2. induction cs as [|c cs IH]; intros m1 m2 Hm; cbn [calls]; [done|].
  eapply same_outcome_bind; [|apply IH].
  destruct c; cbn [call_method]; [by apply step_same | by apply update_same].
Qed.

End draws.

(** * Properties of the specification *)
Section properties.
Import F64_facts nx_facts.
Local Open Scope Z_scope.

(** C1 does not hold as stated: [setup] accepts a single button, a negative
    speed and a negative number of steps, and raises nothing. *)
Lemma invalid_configuration_accepted :
  setup {| n := 1; speed := minus_tenth; steps := -1 |} sample_seed =
  Ok {| p := {| n := 1; speed := minus_tenth; steps := -1 |};
        buttons := {[ 0%nat := ∅ ]};
        agents := [0%nat];
        threads := 0;
        log := {| max_cluster_size := []; threads_to_button := [] |};
        random := sample_seed |}.
Proof. vm_compute. reflexivity. Qed.

Lemma setup_accepts_every_configuration_support {G} `{RandomSource G} (prm : Params) (g : G) :
  (∃ m, setup prm g = Ok m ∧ agents m = seq 0 (Z.to_nat (n prm)) ∧
        (∀ v, nx.neighbors (buttons m) v = ∅) ∧ threads m = 0 ∧ metrics_log m = []) ∧
  (∀ cs k y, 2 ≤ n prm → edges_per_step prm = Ok k →
     F64.int_truediv (count_steps cs * Z.max 0 k) (n prm) = Ok y →
     ∃ m0 m, setup prm g = Ok m0 ∧ calls cs m0 = Ok m).
Proof.
  split.
  - eexists. split; [reflexivity|]. cbn [agents buttons threads].
    unfold add_agents, AgentList. split_and!; try done.
    intros v. pose proof (wf_loop_free _ (setup_wf prm g _ eq_refl)) as _.
    assert (Hnb : ∀ l (g0 : nx.Graph) u,
      nx.neighbors (foldl nx.add_node g0 l) u = nx.neighbors g0 u).
    { induction l as [|a l IH]; intros g0 u; cbn [foldl]; [done|].
      by rewrite IH, neighbors_add_node. }
    rewrite Hnb. unfold nx.neighbors. by rewrite lookup_empty.
  - intros cs k y Hn Hk Hy.
    destruct (setup prm g) as [m0|e] eqn:Hs; [|done].
    pose proof (setup_wf _ _ _ Hs) as Hwf. injection Hs as Hs.
    assert (Hp : p m0 = prm) by (by rewrite <- Hs).
    assert (Ht : threads m0 = 0) by (by rewrite <- Hs).
    destruct (calls_total cs m0 k y Hwf) as (m & Hm); rewrite ?Hp, ?Ht; try done.
    eauto.
Qed.

(** C1, as the code has it: [setup] checks nothing. It succeeds for every
    configuration, with the [n] buttons isolated, no thread and nothing
    recorded, and [InvalidConfiguration] is never raised. For [n >= 2],
    when [int(n * speed)] is defined and the ratio of all the threads to
    [n] is a float, no later call of [step] or [update] fails. *)
Theorem setup_accepts_every_configuration G `{RandomSource G} (prm : Params) (g : G) :
  (∃ m, setup prm g = Ok m ∧ agents m = seq 0 (Z.to_nat (n prm)) ∧
        (∀ v, nx.neighbors (buttons m) v = ∅) ∧ threads m = 0 ∧ metrics_log m = []) ∧
  (∀ cs k y, 2 ≤ n prm → edges_per_step prm = Ok k →
     F64.int_truediv (count_steps cs * Z.max 0 k) (n prm) = Ok y →
     ∃ m0 m, setup prm g = Ok m0 ∧ calls cs m0 = Ok m).
Proof. apply setup_accepts_every_configuration_support. Qed.

Lemma setup_accepts_every_configuration_witness :
  ∃ m0 m, setup sample_params sample_seed = Ok m0 ∧
          calls [Step; Update; Step; Update] m0 = Ok m.
Proof.
  apply (proj2 (setup_accepts_every_configuration Z sample_params sample_seed)
    [Step; Update; Step; Update] 2 F64.one);
    [vm_compute; discriminate | reflexivity | reflexivity].
Defined.



Lemma two_buttons_tie G `{RandomSource G} (m m' : ButtonModel G) :
  wf m → n (p m) = 2 → tie m = Ok m' → buttons m' = two_tied.
Proof.
  intros Hwf Hn Ht.
  destruct (tie_spec m m' Hwf Ht) as (a & b & g' & _ & Hab & Ha & Hb & ->).
  cbn [buttons]. rewrite (wf_agents m Hwf), Hn in Ha, Hb.
  change (seq 0 (Z.to_nat 2)) with [0%nat; 1%nat] in *.
  assert (Hdom : dom (buttons m) = {[0%nat; 1%nat]}).
  { rewrite (wf_nodes m Hwf), (wf_agents m Hwf), Hn. set_solver. }
  assert (Hnb : ∀ u v, v ∈ nx.neighbors (buttons m) u →
    (u = 0%nat ∧ v = 1%nat) ∨ (u = 1%nat ∧ v = 0%nat)).
  { intros u v Huv. pose proof (wf_closed m Hwf u v Huv) as Hv.
    pose proof (neighbors_in_dom _ _ _ Huv) as Hu.
    pose proof (wf_loop_free m Hwf u) as Hl.
    rewrite Hdom in Hu, Hv. assert (u ≠ v) by (intros ->; done). set_solver. }
  assert (Hab' : a = 0%nat ∧ b = 1%nat ∨ a = 1%nat ∧ b = 0%nat) by set_solver.
  assert (Hset : ∀ u v, v ∈ nx.neighbors (nx.add_edge (buttons m) a b) u ↔
    (u = 0%nat ∧ v = 1%nat) ∨ (u = 1%nat ∧ v = 0%nat)).
  { intros u v. rewrite neighbors_add_edge. split.
    - intros Hv. repeat (apply elem_of_union in Hv as [Hv|Hv]).
      + by apply Hnb.
      + case_decide; set_solver.
      + case_decide; set_solver.
    - intros Huv. destruct Hab' as [[-> ->]|[-> ->]]; destruct Huv as [[-> ->]|[-> ->]];
        repeat case_decide; set_solver. }
  apply map_eq. intros u.
  destruct (nx.add_edge (buttons m) a b !! u) as [x|] eqn:Hx.
  - assert (Hu : u ∈ dom (nx.add_edge (buttons m) a b)) by (by eapply elem_of_dom_2).
    rewrite dom_add_edge, Hdom in Hu.
    assert (Hx' : x = nx.neighbors (nx.add_edge (buttons m) a b) u).
    { unfold nx.neighbors. by rewrite Hx. }
    assert (u = 0%nat ∨ u = 1%nat) as [-> | ->] by set_solver; unfold two_tied;
      simplify_map_eq; f_equal; apply set_eq; intros v; rewrite Hset; set_solver.
  - apply not_elem_of_dom in Hx. rewrite dom_add_edge, Hdom in Hx.
    unfold two_tied. symmetry. apply not_elem_of_dom. set_solver.
Qed.

Lemma two_buttons_step G `{RandomSource G} j (m m' : ButtonModel G) :
  wf m → n (p m) = 2 → for_range (S j) tie m = Ok m' → buttons m' = two_tied.
Proof.
  revert m. induction j as [|j IH]; intros m Hwf Hn; cbn [for_range].
  - destruct (tie m) as [m1|e] eqn:Ht; [|done]. cbn. intros [= <-].
    by eapply two_buttons_tie.
  - destruct (tie m) as [m1|e] eqn:Ht; [|done]. intros Hrest.
    apply (IH m1); [by eapply tie_wf| |exact Hrest].
    destruct (tie_spec m m1 Hwf Ht) as (? & ? & ? & _ & _ & _ & _ & ->). done.
Qed.

Lemma two_tied_components :
  nx.connected_components two_tied = [ {[ 0%nat; 1%nat ]} ] ∧ biggest two_tied = 2.
Proof. split; vm_compute; reflexivity. Qed.

(** C3: the two buttons of every tie are distinct, so no button is ever
    tied to itself; and with two buttons, one step and at least one tie
    in it, the run ends with both buttons in one cluster and the share
    1.0 recorded. *)
Theorem tied_buttons_are_distinct G `{RandomSource G} (prm : Params) (g : G) :
  (∀ m0 cs j m1 m m', setup prm g = Ok m0 → calls cs m0 = Ok m1 →
     for_range j tie m1 = Ok m → tie m = Ok m' →
     ∃ a b, a ≠ b ∧ a ∈ agents m ∧ b ∈ agents m ∧
            buttons m' = nx.add_edge (buttons m) a b) ∧
  (∀ m0 cs m, setup prm g = Ok m0 → calls cs m0 = Ok m → nx.loop_free (buttons m)) ∧
  (∀ k ratio, n prm = 2 → steps prm = 1 → edges_per_step prm = Ok k → 1 ≤ k →
     F64.int_truediv k 2 = Ok ratio →
     ∃ m, run prm g = Ok m ∧
          nx.connected_components (buttons m) = [ {[ 0%nat; 1%nat ]} ] ∧
          metrics_log m = [(ratio, F64.one)]).
Proof.
  split_and!.
  - intros m0 cs j m1 m m' Hs Hc Hj Ht.
    destruct (reachable_wf _ _ _ _ _ Hs Hc) as [Hwf1 _].
    destruct (for_range_tie j m1 m Hwf1 Hj) as (Hwf & _).
    destruct (tie_spec m m' Hwf Ht) as (a & b & g' & _ & ? & ? & ? & ->).
    exists a, b. done.
  - intros m0 cs m Hs Hc. destruct (reachable_wf _ _ _ _ _ Hs Hc) as [Hwf _].
    apply (wf_loop_free m Hwf).
  - intros k ratio Hn Hsteps Hk Hk1 Hratio.
    pose proof (setup_wf prm g _ eq_refl) as Hwf0.
    set (m0 := {| p := prm; buttons := add_agents (AgentList (n prm));
                  agents := AgentList (n prm); threads := 0;
                  log := {| max_cluster_size := []; threads_to_button := [] |};
                  random := g |}) in *.
    assert (Hrun : run prm g = run_step m0).
    { unfold run, setup. fold m0. cbn. rewrite Hsteps.
      change (Z.to_nat 1) with 1%nat. cbn [for_range].
      destruct (run_step m0); done. }
    rewrite Hrun.
    destruct (calls_total (schedule 1) m0 k ratio Hwf0) as (m & Hm); cbn [p threads m0].
    { lia. } { done. }
    { rewrite Hn. change (count_steps (schedule 1)) with 1.
      replace (0 + 1 * Z.max 0 k) with k by lia. done. }
    rewrite <- for_range_run_step in Hm. cbn [for_range] in Hm.
    destruct (run_step m0) as [m'|e] eqn:Hr; [|done]. cbn in Hm. injection Hm as ->.
    exists m.
    destruct (run_step_log m0 m Hwf0 Hr) as (m1 & ratio' & share & Hstep & _ & _ & Hra & Hsh & Hlog).
    destruct (step_spec m0 m1 Hwf0 Hstep) as (k' & Hk' & Hties & Hwf1 & _ & _ & _ & Hth).
    cbn [p m0] in Hk', Hra, Hsh. rewrite Hk in Hk'. injection Hk' as <-.
    assert (Hb1 : buttons m1 = two_tied).
    { destruct (Z.to_nat k) as [|j] eqn:Hj; [lia|].
      exact (two_buttons_step G j m0 m1 Hwf0 Hn Hties). }
    assert (Hbm : buttons m = two_tied).
    { unfold run_step in Hr. rewrite Hstep in Hr. cbn in Hr.
      by destruct (update_spec m1 m Hwf1 Hr) as (? & ? & _ & _ & _ & _ & _ & -> & _). }
    destruct two_tied_components as [Hcc Hbig].
    rewrite Hb1, Hbig, Hn in Hsh. rewrite Hn in Hra.
    cbn [threads m0] in Hth. rewrite Hth in Hra.
    replace (0 + Z.max 0 k) with k in Hra by lia.
    rewrite Hratio in Hra. injection Hra as <-.
    change (F64.int_truediv 2 2) with (Ok F64.one) in Hsh. injection Hsh as <-.
    split_and!; [done| by rewrite Hbm | done].
Qed.

Lemma tied_buttons_are_distinct_witness :
  ∃ m, run {| n := 2; speed := F64.one; steps := 1 |} sample_seed = Ok m ∧
       nx.connected_components (buttons m) = [ {[ 0%nat; 1%nat ]} ] ∧
       metrics_log m = [(F64.one, F64.one)].
Proof.
  apply (proj2 (proj2 (tied_buttons_are_distinct Z
    {| n := 2; speed := F64.one; steps := 1 |} sample_seed)) 2 F64.one);
    [reflexivity | reflexivity | reflexivity | vm_compute; discriminate | reflexivity].
Defined.

Lemma sample_final_reached : calls sample_calls sample_start = Ok sample_final.
Proof. vm_compute. reflexivity. Qed.

(** C4: every recorded share of the biggest cluster lies between 0.0 and
    1.0. *)
Theorem max_cluster_size_between_0_and_1 G `{RandomSource G}
    (prm : Params) (g : G) m0 cs m :
  setup prm g = Ok m0 → calls cs m0 = Ok m →
  Forall (λ x, F64.le F64.zero x ∧ F64.le x F64.one) (max_cluster_size (log m)).
Proof.
  intros Hs Hc. destruct (reachable_wf _ _ _ _ _ Hs Hc) as [Hwf Hp].
  apply Forall_lookup. intros i x Hx.
  destruct (wf_share m Hwf) as [Hval _].
  destruct (Hval i x Hx) as (a & Ha & Hax).
  destruct (biggest_le_n m Hwf ltac:(lia)) as [Hb Hn].
  destruct (int_truediv_le_one a (n (p m)) ltac:(lia) Hn) as (x' & Hx' & ? & ?).
  rewrite Hax in Hx'. by injection Hx' as <-.
Qed.

Lemma max_cluster_size_between_0_and_1_witness :
  Forall (λ x, F64.le F64.zero x ∧ F64.le x F64.one) (max_cluster_size (log sample_final)).
Proof.
  apply (max_cluster_size_between_0_and_1 Z sample_params sample_seed
           sample_start sample_calls sample_final);
    [reflexivity | vm_compute; reflexivity].
Defined.

(** C5: consecutive recorded ratios of threads to buttons never decrease. *)
Theorem threads_to_button_never_decreases G `{RandomSource G}
    (prm : Params) (g : G) m0 cs m i x y :
  setup prm g = Ok m0 → calls cs m0 = Ok m →
  threads_to_button (log m) !! i = Some x →
  threads_to_button (log m) !! S i = Some y →
  F64.le x y.
Proof.
  intros Hs Hc Hx Hy. destruct (reachable_wf _ _ _ _ _ Hs Hc) as [Hwf _].
  destruct (wf_ratio m Hwf) as [_ Hsorted].
  apply (Hsorted i (S i) x y); [lia|done..].
Qed.

Lemma threads_to_button_never_decreases_witness :
  F64.le half F64.one.
Proof.
  apply (threads_to_button_never_decreases Z sample_params sample_seed
           sample_start sample_calls sample_final 0 half F64.one);
    [reflexivity | vm_compute; reflexivity | vm_compute; reflexivity
    | vm_compute; reflexivity].
Defined.

(** C6: consecutive recorded shares of the biggest cluster never decrease. *)
Theorem max_cluster_size_never_decreases G `{RandomSource G}
    (prm : Params) (g : G) m0 cs m i x y :
  setup prm g = Ok m0 → calls cs m0 = Ok m →
  max_cluster_size (log m) !! i = Some x →
  max_cluster_size (log m) !! S i = Some y →
  F64.le x y.
Proof.
  intros Hs Hc Hx Hy. destruct (reachable_wf _ _ _ _ _ Hs Hc) as [Hwf _].
  destruct (wf_share m Hwf) as [_ Hsorted].
  apply (Hsorted i (S i) x y); [lia|done..].
Qed.

Lemma max_cluster_size_never_decreases_witness :
  F64.le half half.
Proof.
  apply (max_cluster_size_never_decreases Z sample_params sample_seed
           sample_start sample_calls sample_final 0 half half);
    [reflexivity | vm_compute; reflexivity | vm_compute; reflexivity
    | vm_compute; reflexivity].
Defined.

(** C10: every recorded share of the biggest cluster is at least [1 / n],
    the share of a single button. *)
Theorem max_cluster_size_at_least_one_button G `{RandomSource G}
    (prm : Params) (g : G) m0 cs m :
  setup prm g = Ok m0 → calls cs m0 = Ok m →
  Forall (λ x, ∃ r, F64.int_truediv 1 (n prm) = Ok r ∧ F64.le r x)
         (max_cluster_size (log m)).
Proof.
  intros Hs Hc. destruct (reachable_wf _ _ _ _ _ Hs Hc) as [Hwf Hp].
  apply Forall_lookup. intros i x Hx.
  destruct (wf_share m Hwf) as [Hval _].
  destruct (Hval i x Hx) as (a & Ha & Hax).
  destruct (biggest_le_n m Hwf ltac:(lia)) as [Hb Hn].
  rewrite Hp in *.
  destruct (int_truediv_mono 1 a (n prm) x ltac:(lia) Hn Hax) as (r & Hr & Hle).
  eauto.
Qed.

Lemma max_cluster_size_at_least_one_button_witness :
  Forall (λ x, ∃ r, F64.int_truediv 1 4 = Ok r ∧ F64.le r x)
         (max_cluster_size (log sample_final)).
Proof.
  apply (max_cluster_size_at_least_one_button Z sample_params sample_seed
           sample_start sample_calls sample_final);
    [reflexivity | vm_compute; reflexivity].
Defined.

Lemma add_edge_neighbors_tied (g : nx.Graph) a b :
  b ∈ nx.neighbors (nx.add_edge g a b) a ∧ a ∈ nx.neighbors (nx.add_edge g a b) b.
Proof. rewrite !neighbors_add_edge. split; repeat case_decide; set_solver. Qed.

(** C7: tying a pair that is tied already counts one more thread and
    leaves the network, its clusters and the biggest cluster as they
    were; so does a second tie of the pair just tied, in either order. *)
Theorem duplicate_thread_counts_without_connecting G `{RandomSource G} :
  (∀ (m : ButtonModel G) a b g',
     random2 (agents m) (random m) = Ok (a, b, g') →
     b ∈ nx.neighbors (buttons m) a → a ∈ nx.neighbors (buttons m) b →
     ∃ m', tie m = Ok m' ∧ threads m' = threads m + 1 ∧
           buttons m' = buttons m ∧
           nx.connected_components (buttons m') = nx.connected_components (buttons m) ∧
           biggest (buttons m') = biggest (buttons m)) ∧
  (∀ (g : nx.Graph) a b,
     nx.add_edge (nx.add_edge g a b) a b = nx.add_edge g a b ∧
     nx.add_edge (nx.add_edge g a b) b a = nx.add_edge g a b).
Proof.
  split.
  - intros m a b g' Hr Hb Ha. unfold tie. rewrite Hr. cbn.
    eexists. split; [reflexivity|]. cbn [threads buttons].
    rewrite (add_edge_tied _ _ _ Hb Ha). done.
  - intros g a b. destruct (add_edge_neighbors_tied g a b) as [Hb Ha].
    split; by apply add_edge_tied.
Qed.

Lemma duplicate_thread_counts_without_connecting_witness :
  ∃ m', tie sample_tied = Ok m' ∧ threads m' = threads sample_tied + 1 ∧
        buttons m' = buttons sample_tied ∧
        nx.connected_components (buttons m') =
          nx.connected_components (buttons sample_tied) ∧
        biggest (buttons m') = biggest (buttons sample_tied).
Proof.
  apply (proj1 (duplicate_thread_counts_without_connecting Z)
           sample_tied 1%nat 0%nat 7670121922720514734);
    vm_compute; reflexivity.
Defined.


Lemma to_int_floor (x : spec_float) k :
  F64.to_int x = Ok k →
  ∃ fl, F64.floor x = Ok fl ∧ Z.max 0 fl = Z.max 0 k ∧ (0 ≤ fl → fl = k).
Proof.
  destruct x as [s|s| |s m e]; cbn [F64.to_int F64.floor]; try done.
  - intros [= <-]. exists 0. done.
  - intros [= <-]. destruct s; cbn [cond_Zopp].
    + exists (Z.shiftl (- Z.pos m) e).
      assert (Hneg : ¬ 0 ≤ Z.shiftl (- Z.pos m) e) by (rewrite Z.shiftl_nonneg; lia).
      assert (Hpos : 0 ≤ Z.shiftl (Z.pos m) e) by (rewrite Z.shiftl_nonneg; lia).
      split; [done|]. split; lia.
    + exists (Z.shiftl (Z.pos m) e). done.
Qed.

Lemma thirty_steps_of_five G `{RandomSource G} (prm : Params) (g : G) cs :
  n prm = 100 → edges_per_step prm = Ok 5 → count_steps cs = 30 →
  ∃ m0 m m', setup prm g = Ok m0 ∧ calls cs m0 = Ok m ∧
             threads m = 150 ∧ update m = Ok m' ∧
             last (threads_to_button (log m')) = Some three_halves.
Proof.
  intros Hn Hk Hcount.
  destruct (setup prm g) as [m0|e] eqn:Hs; [|done].
  pose proof (setup_wf prm g m0 Hs) as Hwf0.
  assert (Hp0 : p m0 = prm) by (by injection Hs as <-).
  assert (Ht0 : threads m0 = 0) by (by injection Hs as <-).
  assert (Hdiv : F64.int_truediv 150 100 = Ok three_halves) by reflexivity.
  destruct (calls_total cs m0 5 three_halves Hwf0) as (m & Hm).
  { rewrite Hp0, Hn. lia. }
  { by rewrite Hp0. }
  { rewrite Hp0, Ht0, Hn, Hcount. exact Hdiv. }
  destruct (calls_wf cs m0 m Hwf0 Hm) as [Hwf Hp]. rewrite Hp0 in Hp.
  pose proof (calls_threads cs m0 m 5 Hwf0 ltac:(by rewrite Hp0) Hm) as Hth.
  rewrite Ht0, Hcount in Hth.
  destruct (update_total m 150 three_halves Hwf) as (m' & Hm');
    [rewrite Hp, Hn; lia | lia | by rewrite Hp, Hn |].
  destruct (update_spec m m' Hwf Hm') as (share & ratio & _ & _ & _ & _ & Hr & Heq & _).
  rewrite Hp, Hn, Hth in Hr. change (0 + 30 * 0 `max` 5) with 150 in Hr.
  rewrite Hdiv in Hr. injection Hr as <-.
  exists m0, m, m'. split_and!; [done|done|lia|done|].
  rewrite Heq. cbn [log record_threads_to_button threads_to_button]. apply last_snoc.
Qed.





End properties.

(** * Further properties of the model *)
Section further.
Import F64_facts nx_facts partition_facts.
Local Open Scope Z_scope.

(** X1: with a speed that is zero or negative (and [n >= 0]), a [step] that
    returns has tied nothing: the model is unchanged. *)
Theorem step_with_nonpositive_speed_ties_nothing G `{RandomSource G}
    (m m' : ButtonModel G) :
  0 ≤ n (p m) → F64.le (speed (p m)) F64.zero → step m = Ok m' → m' = m.
Proof. apply step_nonpositive_speed. Qed.

Lemma step_with_nonpositive_speed_ties_nothing_witness :
  idle_start = idle_start.
Proof.
  apply (step_with_nonpositive_speed_ties_nothing Z idle_start idle_start);
    [vm_compute; discriminate | reflexivity | vm_compute; reflexivity].
Defined.

(** X2: with a speed that is zero or negative, no thread is ever counted,
    every recorded ratio is 0.0 and every recorded share is that of one
    button, [1 / n]. *)
Theorem nonpositive_speed_records_isolated_buttons G `{RandomSource G}
    (prm : Params) (g : G) m0 cs m :
  1 ≤ n prm → F64.le (speed prm) F64.zero →
  setup prm g = Ok m0 → calls cs m0 = Ok m →
  threads m = 0 ∧
  Forall (λ x, x = F64.zero) (threads_to_button (log m)) ∧
  Forall (λ x, F64.int_truediv 1 (n prm) = Ok x) (max_cluster_size (log m)).
Proof.
  intros Hn Hle Hs Hc.
  pose proof (setup_wf _ _ _ Hs) as Hwf0.
  destruct (reachable_wf _ _ _ _ _ Hs Hc) as [Hwf Hp].
  assert (Hp0 : p m0 = prm) by (by injection Hs as <-).
  assert (Ht0 : threads m0 = 0) by (by injection Hs as <-).
  destruct (calls_nonpositive_speed cs m0 m Hwf0) as [Hb Ht];
    [rewrite Hp0; lia | by rewrite Hp0 | done |].
  rewrite Ht0 in Ht.
  assert (Hbig : biggest (buttons m) = 1).
  { apply biggest_no_edges.
    - apply (wf_closed m Hwf).
    - apply nodes_nonempty; [done | rewrite Hp; lia].
    - intros u. rewrite Hb. by eapply setup_no_edges. }
  split_and!; [done| |]; apply Forall_lookup; intros i x Hx.
  - destruct (wf_ratio m Hwf) as [Hval _].
    destruct (Hval i x Hx) as (a & Ha & Hax). rewrite Ht in Ha.
    assert (a = 0) as -> by lia. rewrite Hp, int_truediv_zero in Hax by lia.
    by injection Hax as <-.
  - destruct (wf_share m Hwf) as [Hval _].
    destruct (Hval i x Hx) as (a & Ha & Hax). rewrite Hbig in Ha.
    assert (a = 1) as -> by lia. by rewrite Hp in Hax.
Qed.

Lemma nonpositive_speed_records_isolated_buttons_witness :
  threads idle_final = 0 ∧
  Forall (λ x, x = F64.zero) (threads_to_button (log idle_final)) ∧
  Forall (λ x, F64.int_truediv 1 (n idle_params) = Ok x) (max_cluster_size (log idle_final)).
Proof.
  apply (nonpositive_speed_records_isolated_buttons Z idle_params sample_seed
           idle_start sample_calls idle_final);
    [vm_compute; discriminate | reflexivity | reflexivity | vm_compute; reflexivity].
Defined.



(** X3: without any button ([n <= 0]) [update] raises [ValueError], the
    [max] of an empty list, before it divides by [n]. *)
Theorem update_without_buttons_raises G `{RandomSource G}
    (prm : Params) (g : G) m0 cs m :
  n prm ≤ 0 → setup prm g = Ok m0 → calls cs m0 = Ok m →
  update m = Raise ValueError.
Proof.
  intros Hn Hs Hc. destruct (reachable_wf _ _ _ _ _ Hs Hc) as [Hwf Hp].
  unfold update, nx.connected_components.
  rewrite (wf_nodes m Hwf), (wf_agents m Hwf), Hp.
  replace (Z.to_nat (n prm)) with 0%nat by lia. cbn [seq list_to_set].
  rewrite elements_empty. done.
Qed.

Lemma update_without_buttons_raises_witness :
  update empty_start = Raise ValueError.
Proof.
  apply (update_without_buttons_raises Z empty_params sample_seed empty_start [] empty_start);
    [vm_compute; discriminate | reflexivity | reflexivity].
Defined.

(** X5: after any sequence of calls, [threads] is the number of [step]
    calls times the ties of one step. *)
Theorem threads_count_the_ties G `{RandomSource G} (prm : Params) (g : G) m0 cs m k :
  setup prm g = Ok m0 → calls cs m0 = Ok m → edges_per_step prm = Ok k →
  threads m = count_steps cs * Z.max 0 k.
Proof.
  intros Hs Hc Hk. pose proof (setup_wf _ _ _ Hs) as Hwf0.
  assert (Hp0 : p m0 = prm) by (by injection Hs as <-).
  assert (Ht0 : threads m0 = 0) by (by injection Hs as <-).
  rewrite (calls_threads cs m0 m k Hwf0 ltac:(by rewrite Hp0) Hc). lia.
Qed.

Lemma threads_count_the_ties_witness :
  threads sample_final = count_steps sample_calls * Z.max 0 2.
Proof.
  apply (threads_count_the_ties Z sample_params sample_seed sample_start sample_calls
           sample_final 2);
    [reflexivity | vm_compute; reflexivity | reflexivity].
Defined.



(** X7: the network keeps exactly the buttons [setup] made as its nodes;
    every thread joins two different buttons and is seen from both. *)
Theorem network_keeps_its_buttons G `{RandomSource G} (prm : Params) (g : G) m0 cs m :
  setup prm g = Ok m0 → calls cs m0 = Ok m →
  agents m = seq 0 (Z.to_nat (n prm)) ∧
  dom (buttons m) = list_to_set (agents m) ∧
  ∀ u v, v ∈ nx.neighbors (buttons m) u →
    u ∈ agents m ∧ v ∈ agents m ∧ u ≠ v ∧ u ∈ nx.neighbors (buttons m) v.
Proof.
  intros Hs Hc. destruct (reachable_wf _ _ _ _ _ Hs Hc) as [Hwf Hp].
  split_and!.
  - by rewrite (wf_agents m Hwf), Hp.
  - apply (wf_nodes m Hwf).
  - intros u v Huv.
    pose proof (neighbors_in_dom _ _ _ Huv) as Hu.
    pose proof (wf_closed m Hwf u v Huv) as Hv.
    rewrite (wf_nodes m Hwf) in Hu, Hv. split_and!.
    + set_solver.
    + set_solver.
    + intros ->. by apply (wf_loop_free m Hwf v).
    + by apply (wf_symmetric m Hwf).
Qed.

Lemma network_keeps_its_buttons_witness :
  agents sample_final = seq 0 (Z.to_nat (n sample_params)) ∧
  dom (buttons sample_final) = list_to_set (agents sample_final) ∧
  ∀ u v, v ∈ nx.neighbors (buttons sample_final) u →
    u ∈ agents sample_final ∧ v ∈ agents sample_final ∧ u ≠ v ∧
    u ∈ nx.neighbors (buttons sample_final) v.
Proof.
  apply (network_keeps_its_buttons Z sample_params sample_seed sample_start
           sample_calls sample_final);
    [reflexivity | vm_compute; reflexivity].
Defined.

(** X6: the components [update] measures partition the buttons: every
    button lies in one component and in no other, the components hold
    buttons only, and their sizes sum to the number of buttons. *)
Theorem clusters_partition_the_buttons G `{RandomSource G} (prm : Params) (g : G) m0 cs m :
  setup prm g = Ok m0 → calls cs m0 = Ok m →
  (∀ v, v ∈ agents m → ∃ c, c ∈ nx.connected_components (buttons m) ∧ v ∈ c) ∧
  (∀ i j c1 c2 v,
     nx.connected_components (buttons m) !! i = Some c1 →
     nx.connected_components (buttons m) !! j = Some c2 →
     v ∈ c1 → v ∈ c2 → i = j) ∧
  (∀ c v, c ∈ nx.connected_components (buttons m) → v ∈ c → v ∈ agents m) ∧
  sum_list (size <$> nx.connected_components (buttons m)) = length (agents m).
Proof.
  intros Hs Hc. destruct (reachable_wf _ _ _ _ _ Hs Hc) as [Hwf Hp].
  destruct (components_from_partition (buttons m) (elements (dom (buttons m))) ∅
    (wf_closed m Hwf) (wf_symmetric m Hwf)) as (H1 & H2 & H3 & H4).
  { intros v. by rewrite elem_of_elements. }
  { intros x y. set_solver. }
  fold (nx.connected_components (buttons m)) in *.
  assert (Hall : ⋃ nx.connected_components (buttons m) = dom (buttons m)).
  { apply set_eq. intros v. split.
    - intros (c & Hcin & Hv)%elem_of_union_list. destruct (H1 c Hcin) as (_ & Hsub & _).
      by apply Hsub.
    - intros Hv. specialize (H4 v ltac:(by apply elem_of_elements)). set_solver. }
  split_and!.
  - intros v Hv. apply elem_of_union_list. rewrite Hall, (wf_nodes m Hwf). set_solver.
  - exact H2.
  - intros c v Hcin Hv. destruct (H1 c Hcin) as (_ & Hsub & _).
    apply Hsub in Hv. rewrite (wf_nodes m Hwf) in Hv. set_solver.
  - rewrite <- H3, Hall, (wf_nodes m Hwf), (wf_agents m Hwf).
    rewrite size_list_to_set by apply NoDup_seq. done.
Qed.

Lemma clusters_partition_the_buttons_witness :
  (∀ v, v ∈ agents sample_final →
     ∃ c, c ∈ nx.connected_components (buttons sample_final) ∧ v ∈ c) ∧
  (∀ i j c1 c2 v,
     nx.connected_components (buttons sample_final) !! i = Some c1 →
     nx.connected_components (buttons sample_final) !! j = Some c2 →
     v ∈ c1 → v ∈ c2 → i = j) ∧
  (∀ c v, c ∈ nx.connected_components (buttons sample_final) → v ∈ c →
     v ∈ agents sample_final) ∧
  sum_list (size <$> nx.connected_components (buttons sample_final)) =
    length (agents sample_final).
Proof.
  apply (clusters_partition_the_buttons Z sample_params sample_seed sample_start
           sample_calls sample_final);
    [reflexivity | vm_compute; reflexivity].
Defined.

(** X4: [step] raises [ValueError] when the speed is a NaN, and
    [OverflowError] when the speed is infinite and [n] is not 0. *)
Theorem step_rejects_a_speed_that_is_not_finite G `{RandomSource G}
    (m : ButtonModel G) x :
  F64.of_int (n (p m)) = Ok x →
  (speed (p m) = S754_nan → step m = Raise ValueError) ∧
  (∀ s sx mx ex, speed (p m) = S754_infinity s → x = S754_finite sx mx ex →
     step m = Raise OverflowError).
Proof.
  intros Hx. unfold step, edges_per_step, F64.int_mul. rewrite Hx. cbn. split.
  - intros ->. destruct x; done.
  - intros s sx mx ex -> ->. done.
Qed.

Lemma step_rejects_a_speed_that_is_not_finite_witness :
  (speed (p nan_start) = S754_nan → step nan_start = Raise ValueError) ∧
  (∀ s sx mx ex, speed (p nan_start) = S754_infinity s →
     S754_finite false 4503599627370496 (-50) = S754_finite sx mx ex →
     step nan_start = Raise OverflowError).
Proof.
  apply (step_rejects_a_speed_that_is_not_finite Z nan_start
           (S754_finite false 4503599627370496 (-50))).
  reflexivity.
Defined.

(** X10: the components [update] measures are the classes of connected
    buttons: a button lies in the component of another exactly when
    threads lead from one to the other. *)
Theorem clusters_are_the_connected_buttons G `{RandomSource G}
    (prm : Params) (g : G) m0 cs m c u v :
  setup prm g = Ok m0 → calls cs m0 = Ok m →
  c ∈ nx.connected_components (buttons m) → u ∈ c →
  (v ∈ c ↔ nx.connected (buttons m) u v).
Proof.
  intros Hs Hc. destruct (reachable_wf _ _ _ _ _ Hs Hc) as [Hwf _].
  apply component_is_class; [apply (wf_closed m Hwf) | apply (wf_symmetric m Hwf)].
Qed.

Lemma clusters_are_the_connected_buttons_witness :
  1%nat ∈ ({[ 0%nat; 1%nat ]} : gset nat) ↔ nx.connected (buttons sample_final) 0%nat 1%nat.
Proof.
  apply (clusters_are_the_connected_buttons Z sample_params sample_seed sample_start
           sample_calls sample_final {[ 0%nat; 1%nat ]} 0%nat 1%nat).
  - reflexivity.
  - vm_compute; reflexivity.
  - apply (bool_decide_unpack _); vm_compute; exact I.
  - apply (bool_decide_unpack _); vm_compute; exact I.
Defined.

(** X11: a tie merges the clusters of its two buttons and nothing else:
    afterwards two buttons are connected exactly when they were, or when
    one was connected to one end of the new thread and the other to the
    other end; the biggest cluster does not shrink. *)
Theorem tie_merges_two_clusters G `{RandomSource G}
    (prm : Params) (g : G) m0 cs j m1 m m' :
  setup prm g = Ok m0 → calls cs m0 = Ok m1 →
  for_range j tie m1 = Ok m → tie m = Ok m' →
  ∃ a b, a ≠ b ∧ buttons m' = nx.add_edge (buttons m) a b ∧
    (∀ u v, nx.connected (buttons m') u v ↔
       nx.connected (buttons m) u v ∨
       (nx.connected (buttons m) u a ∧ nx.connected (buttons m) b v) ∨
       (nx.connected (buttons m) u b ∧ nx.connected (buttons m) a v)) ∧
    biggest (buttons m) ≤ biggest (buttons m').
Proof.
  intros Hs Hc Hj Ht. destruct (reachable_wf _ _ _ _ _ Hs Hc) as [Hwf1 _].
  destruct (for_range_tie j m1 m Hwf1 Hj) as (Hwf & _).
  destruct (tie_spec m m' Hwf Ht) as (a & b & g' & _ & Hab & Ha & Hb & ->).
  exists a, b. cbn [buttons]. split_and!; [done|done| |].
  - intros u v. apply connected_add_edge.
  - apply biggest_add_edge; [apply (wf_closed m Hwf)| |];
      rewrite (wf_nodes m Hwf); set_solver.
Qed.

Lemma tie_merges_two_clusters_witness :
  ∃ a b, a ≠ b ∧ buttons sample_stepped = nx.add_edge (buttons sample_drawn) a b ∧
    (∀ u v, nx.connected (buttons sample_stepped) u v ↔
       nx.connected (buttons sample_drawn) u v ∨
       (nx.connected (buttons sample_drawn) u a ∧ nx.connected (buttons sample_drawn) b v) ∨
       (nx.connected (buttons sample_drawn) u b ∧ nx.connected (buttons sample_drawn) a v)) ∧
    biggest (buttons sample_drawn) ≤ biggest (buttons sample_stepped).
Proof.
  apply (tie_merges_two_clusters Z sample_params sample_seed sample_start
           [Step; Update] 1 sample_tied sample_drawn sample_stepped);
    [reflexivity | vm_compute; reflexivity | vm_compute; reflexivity
    | vm_compute; reflexivity].
Defined.

End further.
